(** * SVG path-data parser ([svgparser.py]): shallow embedding and properties

    The parser is a cursor-based scanner over an immutable string.  It is
    embedded here function by function: Python [str] is [string] (a
    character is an [ascii]; the parser only ever compares characters with
    ASCII ones), a cursor is a [nat], an exception is a value of [exn]
    carried by the [result] monad, and the two [while] loops that skip
    characters are structural recursions on the number of characters left. *)

From Stdlib Require Import Bool Arith ZArith Lia List.
From Stdlib Require Import Ascii String Decimal DecimalString DecimalPos DecimalN.
From Stdlib Require Import SpecFloat.
Import ListNotations.

#[local] Open Scope string_scope.
#[local] Open Scope nat_scope.

(** ** Exceptions and the error monad *)

(** Every [raise] of the module builds a plain [Exception] whose message is
    formatted from the data kept in the constructor.  [IndexError] and
    [ValueError] are the interpreter's own: indexing a string past its end,
    and [int]/[float] on a text that is no literal, or [int]/[str] on more
    digits than the interpreter converts. *)
Inductive exn : Type :=
| EmptyInput                                            (* 'Cannot parse empty string!' *)
| UnexpectedChar (c : ascii) (pos : nat) (d : string)   (* 'Unexpected {c} at {pos} in {d}!' *)
| UnexpectedEnd (pos : nat) (d : string)                (* 'Unexpected end of data at {pos} in {d}!' *)
| UnsupportedCommand (c : ascii) (pos : nat) (d : string) (* 'Unsupported command {c} at {pos} in {d}!' *)
| IndexError                                            (* string index out of range *)
| ValueError.                                           (* invalid literal, or too many digits *)

(** [OutOfFuel] is no Python outcome: it is what the fuelled driver loop
    answers when its fuel does not suffice, and [parse_d_property_total]
    shows that the driver never answers it. *)
Inductive result (A : Type) : Type :=
| Ok (a : A)
| Raise (e : exn)
| OutOfFuel.

Arguments Ok {A} a.
Arguments Raise {A} e.
Arguments OutOfFuel {A}.

Definition bind {A B : Type} (r : result A) (k : A -> result B) : result B :=
  match r with
  | Ok a => k a
  | Raise e => Raise e
  | OutOfFuel => OutOfFuel
  end.

Notation "x <- e ;; k" := (bind e (fun x => k))
  (at level 61, e at next level, right associativity).
Notation "' p <- e ;; k" := (bind e (fun x => let 'p := x in k))
  (at level 61, p pattern, e at next level, right associativity).

(** ** Python builtins used by the parser *)

Module Py.

(** [c in s] for a one-character [c]. *)
Fixpoint char_in (c : ascii) (s : string) : bool :=
  match s with
  | EmptyString => false
  | String a s' => Ascii.eqb c a || char_in c s'
  end.

(** [d[pos]] for [0 <= pos]. *)
Definition index (d : string) (pos : nat) : result ascii :=
  match String.get pos d with
  | Some c => Ok c
  | None => Raise IndexError
  end.

(** [d[a:b]] for [0 <= a]. *)
Definition slice (d : string) (a b : nat) : string := substring a (b - a) d.

(** A numeric value keeps its Python type: [int] is unbounded, [float] is
    IEEE 754 binary64. *)
Inductive number : Type :=
| PyInt (z : Z)
| PyFloat (f : spec_float).

(** The optional sign of a literal and the text after it. *)
Definition split_sign (s : string) : bool * string :=
  match s with
  | String "-" t => (true, t)
  | String "+" t => (false, t)
  | _ => (false, s)
  end.

Definition signed (neg : bool) (n : N) : Z :=
  if neg then Z.opp (Z.of_N n) else Z.of_N n.

(** The number an optional sign followed by decimal digits denotes. *)
Definition decimal_literal (s : string) : option Z :=
  let (neg, s1) := split_sign s in
  match NilZero.uint_of_string s1 with
  | Some u => Some (signed neg (N.of_uint u))
  | None => None
  end.

(** CPython refuses to convert between [int] and text when more than this
    many digits are involved ([sys.get_int_max_str_digits()], 4300 unless
    the interpreter is told otherwise).  The sign is not counted; leading
    zeros are. *)
Definition int_max_str_digits : N := 4300.

Definition within_digit_limit (digits : string) : bool :=
  (N.of_nat (String.length digits) <=? int_max_str_digits)%N.

(** [int(s)] on an optional sign followed by decimal digits; [None] is
    [ValueError]: the text is no such literal, or it has more digits than
    the limit.  (The parser only passes texts of this shape.) *)
Definition int (s : string) : option Z :=
  let (neg, s1) := split_sign s in
  match NilZero.uint_of_string s1 with
  | Some u => if within_digit_limit s1 then Some (signed neg (N.of_uint u)) else None
  | None => None
  end.

Definition is_digit (c : ascii) : bool := char_in c "0123456789".

(** The longest prefix of digits, and what follows it. *)
Fixpoint span_digits (s : string) : string * string :=
  match s with
  | EmptyString => (EmptyString, EmptyString)
  | String c s' =>
      if is_digit c
      then let (a, b) := span_digits s' in (String c a, b)
      else (EmptyString, s)
  end.

Definition binary64_div : spec_float -> spec_float -> spec_float := SFdiv 53 1024.

(** The binary64 nearest to [num / den] (ties to even), with the sign [neg]:
    the quotient of two exact integers, rounded once. *)
Definition float_of_ratio (neg : bool) (num den : positive) : spec_float :=
  binary64_div (S754_finite neg num 0) (S754_finite false den 0).

(** The binary64 nearest to [m * 10^e10]. *)
Definition float_of_decimal (neg : bool) (m : N) (e10 : Z) : spec_float :=
  match m with
  | N0 => S754_zero neg
  | Npos p =>
      if (0 <=? e10)%Z
      then float_of_ratio neg (p * Z.to_pos (10 ^ e10)) 1
      else float_of_ratio neg p (Z.to_pos (10 ^ (- e10)))
  end.

(** The exponent part of a float literal: empty, or [e]/[E], an optional
    sign and digits up to the end of the text. *)
Definition exponent_suffix (s : string) : option Z :=
  match s with
  | EmptyString => Some 0%Z
  | String c t =>
      if Ascii.eqb c "e" || Ascii.eqb c "E" then decimal_literal t else None
  end.

(** [float(s)] on a decimal literal: an optional sign, digits with an
    optional point among them (at least one digit), an optional exponent;
    [None] is [ValueError].  The value is the correctly rounded binary64, as
    CPython's string-to-double conversion gives it; the digit limit of
    [int] does not apply.  (The parser only passes texts of the shape sign,
    digits, point, digits.) *)
Definition float (s : string) : option spec_float :=
  let (neg, s1) := split_sign s in
  let (ip, s2) := span_digits s1 in
  let (fp, s3) :=
    match s2 with
    | String "." t => span_digits t
    | _ => (EmptyString, s2)
    end in
  match NilZero.uint_of_string (ip ++ fp), exponent_suffix s3 with
  | Some u, Some e =>
      Some (float_of_decimal neg (N.of_uint u) (e - Z.of_nat (String.length fp)))
  | _, _ => None
  end.

(** [f] is finite and its exact value is [num / den]. *)
Definition float_is (f : spec_float) (num den : Z) : bool :=
  match f with
  | S754_zero _ => (num =? 0)%Z
  | S754_finite s m e =>
      if (0 <=? e)%Z
      then (cond_Zopp s (Zpos m) * 2 ^ e * den =? num)%Z
      else (cond_Zopp s (Zpos m) * den =? num * 2 ^ (- e))%Z
  | _ => false
  end.

(** *** Text of a number: [str] *)

Definition spec_float_eqb (x y : spec_float) : bool :=
  match x, y with
  | S754_zero s, S754_zero s' => Bool.eqb s s'
  | S754_infinity s, S754_infinity s' => Bool.eqb s s'
  | S754_nan, S754_nan => true
  | S754_finite s m e, S754_finite s' m' e' =>
      Bool.eqb s s' && Pos.eqb m m' && Z.eqb e e'
  | _, _ => false
  end.

(** The decimal digits of [n], without leading zeros (["0"] for 0). *)
Definition digits_of (n : N) : string := NilZero.string_of_uint (N.to_uint n).

(** [str(z)] for an [int]; [None] is the [ValueError] of an [int] with
    more digits than the limit. *)
Definition str_int (z : Z) : option string :=
  let ds := digits_of (Z.abs_N z) in
  if within_digit_limit ds
  then Some ((if (z <? 0)%Z then "-" else EmptyString) ++ ds)
  else None.

Fixpoint zeros (n : nat) : string :=
  match n with
  | O => EmptyString
  | S n' => String "0" (zeros n')
  end.

Fixpoint strip_zeros (s : string) : string :=
  match s with
  | EmptyString => EmptyString
  | String c t =>
      match strip_zeros t with
      | EmptyString => if Ascii.eqb c "0" then EmptyString else String c EmptyString
      | t' => String c t'
      end
  end.

(** The digits [ds] with the decimal point after the first [decpt] of
    them: the value is [0.ds * 10^decpt].  A whole number ends in [.0]. *)
Definition format_fixed (ds : string) (decpt : Z) : string :=
  let len := Z.of_nat (String.length ds) in
  if (decpt <=? 0)%Z then
    "0." ++ zeros (Z.to_nat (- decpt)) ++ ds
  else if (decpt <? len)%Z then
    substring 0 (Z.to_nat decpt) ds ++ "."
      ++ substring (Z.to_nat decpt) (Z.to_nat (len - decpt)) ds
  else
    ds ++ zeros (Z.to_nat (decpt - len)) ++ ".0".

(** One digit, the other digits after a point when there are any, and the
    exponent with its sign and at least two digits. *)
Definition format_exponent (ds : string) (decpt : Z) : string :=
  let e := (decpt - 1)%Z in
  let es := digits_of (Z.to_N (Z.abs e)) in
  substring 0 1 ds
    ++ (if 1 <? String.length ds
        then "." ++ substring 1 (String.length ds - 1) ds else EmptyString)
    ++ "e" ++ (if (e <? 0)%Z then "-" else "+")
    ++ (if String.length es <? 2 then "0" ++ es else es).

(** The layout [repr] chooses: positional from [1e-4] up to, not
    including, [1e16]; with an exponent otherwise. *)
Definition format_short (ds : string) (decpt : Z) : string :=
  if ((-4 <? decpt) && (decpt <=? 16))%Z
  then format_fixed ds decpt
  else format_exponent ds decpt.

(** The text of the decimal [dg * 10^e10], [0 < dg], with the sign [neg]. *)
Definition decimal_text (neg : bool) (dg : Z) (e10 : Z) : string :=
  let ds0 := digits_of (Z.to_N dg) in
  let ds := strip_zeros ds0 in
  (if neg then "-" else EmptyString)
    ++ format_short ds (Z.of_nat (String.length ds0) + e10).

Definition digits10 (n : Z) : Z := Z.of_nat (String.length (digits_of (Z.to_N n))).

(** [x * 10^s] for the ratio [x = num / den]. *)
Definition scale10 (num den s : Z) : Z * Z :=
  if (0 <=? s)%Z then (num * 10 ^ s, den)%Z else (num, den * 10 ^ (- s))%Z.

(** The [k] with [10^(k-1) <= num / den < 10^k]. *)
Definition decimal_exponent (num den : Z) : Z :=
  let k0 := (digits10 num - digits10 den)%Z in
  let (n', d') := scale10 num den (- k0) in
  if (d' <=? n')%Z then (k0 + 1)%Z else k0.

Definition round_trips (x : spec_float) (s : string) : bool :=
  match float s with
  | Some y => spec_float_eqb y x
  | None => false
  end.

(** The two decimals of [n] significant digits around [num / den], as
    texts, and whether the lower one is to be preferred: it is the nearer
    one, or they are equally near and its last digit is even. *)
Definition candidates (neg : bool) (num den : Z) (n : Z) : string * string * bool :=
  let k := decimal_exponent num den in
  let (sn, sd) := scale10 num den (n - k) in
  let lo := (sn / sd)%Z in
  let r := (sn mod sd)%Z in
  (decimal_text neg lo (k - n), decimal_text neg (lo + 1) (k - n),
   ((2 * r <? sd) || ((2 * r =? sd) && Z.even lo))%Z).

(** The shortest decimal that [float] reads back as [x], the nearest to
    [x] among the shortest (the one with an even last digit when two are
    equally near): tried with 1, 2, ... significant digits. *)
Fixpoint shortest (tries : nat) (n : Z) (x : spec_float) (neg : bool) (num den : Z)
  : option string :=
  match tries with
  | O => None
  | S tries' =>
      let '(lo, hi, lo_nearer) := candidates neg num den n in
      match round_trips x lo, round_trips x hi with
      | true, true => Some (if lo_nearer then lo else hi)
      | true, false => Some lo
      | false, true => Some hi
      | false, false => shortest tries' (n + 1) x neg num den
      end
  end.

(** The exact value of a finite float as a ratio. *)
Definition ratio_of (m : positive) (e : Z) : Z * Z :=
  if (0 <=? e)%Z then (Zpos m * 2 ^ e, 1)%Z else (Zpos m, 2 ^ (- e))%Z.

(** The shortest text of [x] within the 17 significant digits that always
    suffice for a binary64, when [x] is finite and not zero. *)
Definition shortest_text (x : spec_float) : option string :=
  match x with
  | S754_finite s m e => let (num, den) := ratio_of m e in shortest 17 1 x s num den
  | _ => None
  end.

(** [repr(x)], which is also [str(x)], for a [float]. *)
Definition repr_float (x : spec_float) : string :=
  match x with
  | S754_zero s => if s then "-0.0" else "0.0"
  | S754_infinity s => if s then "-inf" else "inf"
  | S754_nan => "nan"
  | S754_finite s m e =>
      match shortest_text x with
      | Some t => t
      | None =>
          let (num, den) := ratio_of m e in
          let '(lo, hi, lo_nearer) := candidates s num den 17 in
          if lo_nearer then lo else hi
      end
  end.

(** [str(v)]; [None] is [ValueError]. *)
Definition str (v : number) : option string :=
  match v with
  | PyInt z => str_int z
  | PyFloat x => Some (repr_float x)
  end.

End Py.

Import Py.

(** ** Module constants *)

Definition sep_chars : string := String " " (String "," (String "010" EmptyString)).

Definition minus_sign : ascii := "-".
Definition decimal_point : ascii := ".".
Definition numbers : string := "0123456789".
Definition numberic_chars : string :=
  numbers ++ String minus_sign EmptyString ++ String decimal_point EmptyString.

Definition moveto_absolute : ascii := "M".
Definition moveto_relative : ascii := "m".
Definition moveto_commands : string :=
  String moveto_absolute (String moveto_relative EmptyString).

Definition curveto_absolute : ascii := "C".
Definition curveto_relative : ascii := "c".
Definition curveto_commands : string :=
  String curveto_absolute (String curveto_relative EmptyString).

Definition smooth_curveto_absolute : ascii := "S".
Definition smooth_curveto_relative : ascii := "s".
Definition smooth_curveto_commands : string :=
  String smooth_curveto_absolute (String smooth_curveto_relative EmptyString).

Definition commands : string :=
  moveto_commands ++ curveto_commands ++ smooth_curveto_commands.

(** ** The scanner *)

(** [raise_unexpected_char] reads [d[pos]] to format its message, so it is
    an [IndexError] when [pos] is past the end. *)
Definition raise_unexpected_char {A : Type} (d : string) (pos : nat) : result A :=
  c <- index d pos ;; Raise (UnexpectedChar c pos d).

Definition raise_unexpected_end_of_data {A : Type} (d : string) (pos : nat) : result A :=
  Raise (UnexpectedEnd pos d).

(** The loop shared by [skip_seps] and [skip_numbers]:
    [while pos < d_length: if d[pos] in cls: pos += 1 else: break].
    [left] is [d_length - pos], so [get] answers [None] only when it is 0. *)
Fixpoint skip_while (cls : string) (left : nat) (d : string) (pos : nat) : nat :=
  match left with
  | O => pos
  | S left' =>
      match String.get pos d with
      | Some c => if char_in c cls then skip_while cls left' d (S pos) else pos
      | None => pos
      end
  end.

Definition skip_seps (d : string) (pos : nat) : nat :=
  skip_while sep_chars (String.length d - pos) d pos.

Definition skip_numbers (d : string) (pos : nat) : nat :=
  skip_while numbers (String.length d - pos) d pos.

Definition parse_number (d : string) (pos : nat) : result (nat * number) :=
  let d_length := String.length d in
  let pos := skip_seps d pos in
  if negb (pos <? d_length) then raise_unexpected_end_of_data d pos else
  c <- index d pos ;;
  if negb (char_in c numberic_chars) then raise_unexpected_char d pos else
  let number_start_pos := pos in
  c <- index d pos ;;
  let pos := if Ascii.eqb c minus_sign then S pos else pos in
  c <- index d pos ;;
  if negb (char_in c numbers) then raise_unexpected_char d pos else
  let pos := skip_numbers d pos in
  has_point <- (if pos <? d_length
                then c <- index d pos ;; Ok (Ascii.eqb c decimal_point)
                else Ok false) ;;
  if has_point then
    let pos := S pos in
    c <- index d pos ;;
    if negb (char_in c numbers) then raise_unexpected_char d pos else
    let pos := skip_numbers d pos in
    match float (slice d number_start_pos pos) with
    | Some x => Ok (pos, PyFloat x)
    | None => Raise ValueError
    end
  else
    match int (slice d number_start_pos pos) with
    | Some z => Ok (pos, PyInt z)
    | None => Raise ValueError
    end.

Definition parse_cooridate (d : string) (pos : nat) : result (nat * (number * number)) :=
  let d_length := String.length d in
  '(pos, x) <- parse_number d pos ;;
  let pos := skip_seps d pos in
  if negb (pos <? d_length) then raise_unexpected_end_of_data d pos else
  let pos := skip_seps d pos in
  '(pos, y) <- parse_number d pos ;;
  Ok (pos, (x, y)).

Record PathCommand : Type := mkPathCommand {
  command : ascii;
  args : list number
}.

Definition parse_command (c : ascii) (d : string) (pos : nat)
  : result (nat * PathCommand) :=
  if char_in c moveto_commands then
    '(pos, (x, y)) <- parse_cooridate d pos ;;
    Ok (pos, mkPathCommand c [x; y])
  else if char_in c curveto_commands then
    '(pos, (x1, y1)) <- parse_cooridate d pos ;;
    '(pos, (x2, y2)) <- parse_cooridate d pos ;;
    '(pos, (x, y)) <- parse_cooridate d pos ;;
    Ok (pos, mkPathCommand c [x1; y1; x2; y2; x; y])
  else if char_in c smooth_curveto_commands then
    '(pos, (x2, y2)) <- parse_cooridate d pos ;;
    '(pos, (x, y)) <- parse_cooridate d pos ;;
    Ok (pos, mkPathCommand c [x2; y2; x; y])
  else
    Raise (UnsupportedCommand c pos d).

(** The [while pos < d_length] loop of [parse_d_property]; each turn
    consumes at least one character, so [String.length d] turns suffice. *)
Fixpoint parse_loop (fuel : nat) (d : string) (pos : nat)
    (last_command : option ascii) (command_list : list PathCommand)
  : result (list PathCommand) :=
  if pos <? String.length d then
    match fuel with
    | O => OutOfFuel
    | S fuel' =>
        c <- index d pos ;;
        let pos := S pos in
        if char_in c commands then
          '(pos, path_command) <- parse_command c d pos ;;
          parse_loop fuel' d (skip_seps d pos) (Some c) (command_list ++ [path_command])
        else
          match char_in c numberic_chars, last_command with
          | true, Some last =>
              '(pos, path_command) <- parse_command last d (pos - 1) ;;
              parse_loop fuel' d (skip_seps d pos) last_command
                         (command_list ++ [path_command])
          | _, _ => raise_unexpected_char d pos
          end
    end
  else Ok command_list.

Definition parse_d_property (d : string) : result (list PathCommand) :=
  if String.length d =? 0 then Raise EmptyInput else
  let pos := 0 in
  let pos := skip_seps d pos in
  let pos := skip_seps d pos in
  parse_loop (String.length d) d pos None [].

(** * Vocabulary of the statements *)

(** Where the digits start: after the minus sign when there is one. *)
Definition after_sign (d : string) (start : nat) : nat :=
  match String.get start d with
  | Some c => if Ascii.eqb c minus_sign then S start else start
  | None => start
  end.

(** Every path through [parse_number], with [start] the first position
    after the leading separators. *)
Inductive number_scan (d : string) (pos : nat) : result (nat * number) -> Prop :=
| scan_end :
    String.length d <= skip_seps d pos ->
    number_scan d pos (Raise (UnexpectedEnd (skip_seps d pos) d))
| scan_bad_start c0 :
    String.get (skip_seps d pos) d = Some c0 ->
    char_in c0 numberic_chars = false ->
    number_scan d pos (Raise (UnexpectedChar c0 (skip_seps d pos) d))
| scan_sign_last c0 :
    String.get (skip_seps d pos) d = Some c0 ->
    char_in c0 numberic_chars = true ->
    String.get (after_sign d (skip_seps d pos)) d = None ->
    number_scan d pos (Raise IndexError)
| scan_no_digit c0 c1 :
    String.get (skip_seps d pos) d = Some c0 ->
    char_in c0 numberic_chars = true ->
    String.get (after_sign d (skip_seps d pos)) d = Some c1 ->
    char_in c1 numbers = false ->
    number_scan d pos (Raise (UnexpectedChar c1 (after_sign d (skip_seps d pos)) d))
| scan_int c0 c1 r :
    String.get (skip_seps d pos) d = Some c0 ->
    char_in c0 numberic_chars = true ->
    String.get (after_sign d (skip_seps d pos)) d = Some c1 ->
    char_in c1 numbers = true ->
    String.get (skip_numbers d (after_sign d (skip_seps d pos))) d <> Some decimal_point ->
    r = match int (slice d (skip_seps d pos)
                         (skip_numbers d (after_sign d (skip_seps d pos)))) with
        | Some z => Ok (skip_numbers d (after_sign d (skip_seps d pos)), PyInt z)
        | None => Raise ValueError
        end ->
    number_scan d pos r
| scan_point_last c0 c1 :
    String.get (skip_seps d pos) d = Some c0 ->
    char_in c0 numberic_chars = true ->
    String.get (after_sign d (skip_seps d pos)) d = Some c1 ->
    char_in c1 numbers = true ->
    String.get (skip_numbers d (after_sign d (skip_seps d pos))) d = Some decimal_point ->
    String.get (S (skip_numbers d (after_sign d (skip_seps d pos)))) d = None ->
    number_scan d pos (Raise IndexError)
| scan_point_no_digit c0 c1 c2 :
    String.get (skip_seps d pos) d = Some c0 ->
    char_in c0 numberic_chars = true ->
    String.get (after_sign d (skip_seps d pos)) d = Some c1 ->
    char_in c1 numbers = true ->
    String.get (skip_numbers d (after_sign d (skip_seps d pos))) d = Some decimal_point ->
    String.get (S (skip_numbers d (after_sign d (skip_seps d pos)))) d = Some c2 ->
    char_in c2 numbers = false ->
    number_scan d pos
      (Raise (UnexpectedChar c2 (S (skip_numbers d (after_sign d (skip_seps d pos)))) d))
| scan_float c0 c1 c2 r :
    String.get (skip_seps d pos) d = Some c0 ->
    char_in c0 numberic_chars = true ->
    String.get (after_sign d (skip_seps d pos)) d = Some c1 ->
    char_in c1 numbers = true ->
    String.get (skip_numbers d (after_sign d (skip_seps d pos))) d = Some decimal_point ->
    String.get (S (skip_numbers d (after_sign d (skip_seps d pos)))) d = Some c2 ->
    char_in c2 numbers = true ->
    r = match float (slice d (skip_seps d pos)
              (skip_numbers d (S (skip_numbers d (after_sign d (skip_seps d pos)))))) with
        | Some x =>
            Ok (skip_numbers d (S (skip_numbers d (after_sign d (skip_seps d pos)))),
                PyFloat x)
        | None => Raise ValueError
        end ->
    number_scan d pos r.

(** The argument count of each command kind, as the table of the data model
    gives it. *)
Definition arity (c : ascii) : option nat :=
  match c with
  | "M" | "m" => Some 2
  | "C" | "c" => Some 6
  | "S" | "s" => Some 4
  | _ => None
  end%char.

Definition well_formed (pc : PathCommand) : Prop :=
  arity (command pc) = Some (List.length (args pc)).

(** The three ways a turn of the loop can go, chosen by the character read
    and by the active command. *)
Inductive turn (d : string) (pos : nat) (last : option ascii) : Type :=
| turn_done : String.length d <= pos -> turn d pos last
| turn_letter c :
    String.get pos d = Some c -> char_in c commands = true -> turn d pos last
| turn_elided c l :
    String.get pos d = Some c -> char_in c commands = false ->
    char_in c numberic_chars = true -> last = Some l -> turn d pos last
| turn_other c :
    String.get pos d = Some c -> char_in c commands = false ->
    char_in c numberic_chars = false \/ last = None -> turn d pos last.

(** All characters of [s] belong to [cls]. *)
Fixpoint all_in (cls : string) (s : string) : bool :=
  match s with
  | EmptyString => true
  | String c s' => char_in c cls && all_in cls s'
  end.

(** The failures of reading a character: the two diagnostics of the module
    and the interpreter's [IndexError]. *)
Definition scanner_exn (e : exn) : bool :=
  match e with
  | UnexpectedChar _ _ _ | UnexpectedEnd _ _ | IndexError => true
  | EmptyInput | UnsupportedCommand _ _ _ | ValueError => false
  end.

(** The failures of the scanning functions: those of reading a character,
    and the interpreter's [ValueError] ([int] of too many digits). *)
Definition scan_failure (e : exn) : bool :=
  match e with
  | UnexpectedChar _ _ _ | UnexpectedEnd _ _ | IndexError | ValueError => true
  | EmptyInput | UnsupportedCommand _ _ _ => false
  end.

(** The active command of the loop is always one the dispatcher supports. *)
Definition supported (last : option ascii) : Prop :=
  match last with
  | Some l => char_in l commands = true
  | None => True
  end.

(** [k] numbers scanned one after the other from [pos]: the cursor after
    the last one. *)
Fixpoint scan_numbers (k : nat) (d : string) (pos : nat) : result nat :=
  match k with
  | O => Ok pos
  | S k' => '(p, _) <- parse_number d pos ;; scan_numbers k' d p
  end.

(** The text ends inside the number that starts after the separators from
    [pos]: right after its minus sign, or right after the decimal point
    that follows its digits. *)
Definition ends_in_number (d : string) (pos : nat) : Prop :=
  (String.get (skip_seps d pos) d = Some minus_sign /\
   String.length d = S (skip_seps d pos)) \/
  (exists c1, String.get (after_sign d (skip_seps d pos)) d = Some c1 /\
     char_in c1 numbers = true /\
     String.get (skip_numbers d (after_sign d (skip_seps d pos))) d = Some decimal_point /\
     String.length d = S (skip_numbers d (after_sign d (skip_seps d pos)))).

Definition sign_text (neg : bool) : string :=
  if neg then String minus_sign EmptyString else EmptyString.

(** [s] is in positional notation: an optional minus sign, digits, a point
    and digits, and nothing else. *)
Definition positional (s : string) : bool :=
  let s1 :=
    match s with
    | String c t => if Ascii.eqb c minus_sign then t else s
    | EmptyString => s
    end in
  let (ip, s2) := span_digits s1 in
  match ip, s2 with
  | String _ _, String c t =>
      if Ascii.eqb c decimal_point then
        match span_digits t with
        | (String _ _, EmptyString) => true
        | _ => false
        end
      else false
  | _, _ => false
  end.

(** [v] is an [int], or a [float] whose text is positional: a zero, or a
    finite float whose shortest text, found within 17 digits, is laid out
    without an exponent. *)
Definition has_positional_text (v : number) : bool :=
  match v with
  | PyInt _ => true
  | PyFloat (S754_zero _) => true
  | PyFloat (S754_finite s m e) =>
      match shortest_text (S754_finite s m e) with
      | Some t => positional t
      | None => false
      end
  | PyFloat _ => false
  end.

(** What a failure of [parse_d_property] says is true of the text [d]: a
    diagnostic quotes [d] itself, the character it names is the one at the
    offset it names, and the end it reports is the end of [d]; the empty
    text is the only one refused as empty; the interpreter's [IndexError]
    only shows up on a text whose last character is neither a separator
    nor a command letter, and its [ValueError] only on a text that holds a
    run of more digits than [int] converts. *)
Definition diagnostic_ok (d : string) (e : exn) : Prop :=
  match e with
  | EmptyInput => d = EmptyString
  | UnexpectedChar c pos s => s = d /\ String.get pos d = Some c
  | UnexpectedEnd pos s => s = d /\ pos = String.length d
  | IndexError =>
      exists c, String.get (String.length d - 1) d = Some c /\
                char_in c commands = false /\ char_in c sep_chars = false
  | ValueError =>
      exists a b, (int_max_str_digits < N.of_nat (b - a))%N /\
        forall i, a <= i < b ->
          exists c, String.get i d = Some c /\ char_in c numbers = true
  | UnsupportedCommand _ _ _ => False
  end.

(** The characters the grammar knows: separators, the characters of a
    number, command letters. *)
Definition allowed_chars : string := sep_chars ++ numberic_chars ++ commands.

(** Every position from [a] up to, not including, [b] holds a character
    the grammar knows. *)
Definition covered (d : string) (a b : nat) : Prop :=
  forall i, a <= i < b ->
    exists c, String.get i d = Some c /\ char_in c allowed_chars = true.

(** Two texts that agree everywhere except, possibly, on which separator
    stands where a separator stands. *)
Definition same_but_seps (d d' : string) : Prop :=
  forall i,
    match String.get i d, String.get i d' with
    | Some c, Some c' =>
        c = c' \/ (char_in c sep_chars = true /\ char_in c' sep_chars = true)
    | None, None => True
    | _, _ => False
    end.

(** * Properties *)

(** ** Strings and cursors *)

Section StringFacts.

Lemma get_Some_lt (s : string) (n : nat) (c : ascii) :
  String.get n s = Some c -> n < String.length s.
Proof.
  revert n; induction s as [|a s IH]; intros [|n] H; simpl in *;
    try discriminate; try lia.
  apply IH in H; lia.
Qed.

Lemma get_None_ge (s : string) (n : nat) :
  String.get n s = None <-> String.length s <= n.
Proof.
  revert n; induction s as [|a s IH]; intros [|n]; simpl; split; intros H;
    try reflexivity; try discriminate; try lia.
  - apply IH in H; lia.
  - apply IH; lia.
Qed.

Lemma get_lt_Some (s : string) (n : nat) :
  n < String.length s -> exists c, String.get n s = Some c.
Proof.
  intros H; destruct (String.get n s) as [c|] eqn:E; [now exists c|].
  apply get_None_ge in E; lia.
Qed.

Lemma length_app (s1 s2 : string) :
  String.length (s1 ++ s2) = String.length s1 + String.length s2.
Proof. induction s1; simpl; congruence. Qed.

Lemma get_app_l (s1 s2 : string) (n : nat) :
  n < String.length s1 -> String.get n (s1 ++ s2) = String.get n s1.
Proof.
  revert n; induction s1 as [|a s1 IH]; intros [|n] H; simpl in *;
    try lia; try reflexivity.
  apply IH; lia.
Qed.

Lemma get_app_r (s1 s2 : string) (n : nat) :
  String.get (String.length s1 + n) (s1 ++ s2) = String.get n s2.
Proof. induction s1; simpl; auto. Qed.

Lemma substring_all (s : string) : substring 0 (String.length s) s = s.
Proof. induction s; simpl; congruence. Qed.

Lemma get_substring (s : string) (a n i : nat) :
  i < n -> String.get i (substring a n s) = String.get (a + i) s.
Proof.
  revert a n i; induction s as [|c s IH]; intros a n i H.
  - destruct a, n; simpl; destruct i; reflexivity.
  - destruct a as [|a]; simpl.
    + destruct n as [|n]; [lia|]. destruct i as [|i]; simpl; [reflexivity|].
      rewrite (IH 0 n i) by lia. reflexivity.
    + apply IH; assumption.
Qed.

Lemma length_substring (s : string) (a n : nat) :
  a + n <= String.length s -> String.length (substring a n s) = n.
Proof.
  revert a n; induction s as [|c s IH]; intros a n H; simpl in *.
  - destruct a, n; simpl in *; try reflexivity; lia.
  - destruct a as [|a].
    + destruct n as [|n]; simpl; [reflexivity|]. rewrite (IH 0 n); [reflexivity|lia].
    + apply IH; lia.
Qed.

Lemma char_in_get (c : ascii) (s : string) :
  char_in c s = true <-> exists i, String.get i s = Some c.
Proof.
  induction s as [|a s IH]; simpl.
  - split; [discriminate|]. intros [[|i] H]; discriminate.
  - rewrite orb_true_iff, IH, Ascii.eqb_eq. split.
    + intros [->|[i H]]; [now exists 0 | now exists (S i)].
    + intros [[|i] H]; [left; congruence | right; now exists i].
Qed.

Lemma char_in_app (c : ascii) (s1 s2 : string) :
  char_in c (s1 ++ s2) = char_in c s1 || char_in c s2.
Proof. induction s1; simpl; [reflexivity|]. rewrite IHs1, orb_assoc; reflexivity. Qed.

End StringFacts.

(** ** The skipping loops *)

Section Skip.

Variable cls : string.

Lemma skip_while_ge (left : nat) (d : string) (pos : nat) :
  pos <= skip_while cls left d pos.
Proof.
  revert pos; induction left as [|left IH]; intros pos; simpl; [lia|].
  destruct (String.get pos d) as [c|]; [|lia].
  destruct (char_in c cls); [|lia]. specialize (IH (S pos)); lia.
Qed.

Lemma skip_while_le (left : nat) (d : string) (pos : nat) :
  skip_while cls left d pos <= pos + left.
Proof.
  revert pos; induction left as [|left IH]; intros pos; simpl; [lia|].
  destruct (String.get pos d) as [c|]; [|lia].
  destruct (char_in c cls); [|lia]. specialize (IH (S pos)); lia.
Qed.

(** Every character stepped over belongs to the class. *)
Lemma skip_while_inside (left : nat) (d : string) (pos i : nat) :
  pos <= i < skip_while cls left d pos ->
  exists c, String.get i d = Some c /\ char_in c cls = true.
Proof.
  revert pos; induction left as [|left IH]; intros pos; simpl; [lia|].
  destruct (String.get pos d) as [c|] eqn:G; [|lia].
  destruct (char_in c cls) eqn:C; [|lia].
  intros H. destruct (Nat.eq_dec i pos) as [->|N]; [now exists c|].
  apply (IH (S pos)); lia.
Qed.

(** The loop stops at the end of the text or on a character outside the
    class. *)
Lemma skip_while_stop (d : string) (pos : nat) (c : ascii) :
  String.get (skip_while cls (String.length d - pos) d pos) d = Some c ->
  char_in c cls = false.
Proof.
  remember (String.length d - pos) as left eqn:L.
  revert pos L; induction left as [|left IH]; intros pos L; simpl.
  - intros H; apply get_Some_lt in H; lia.
  - destruct (String.get pos d) as [a|] eqn:G; [|congruence].
    destruct (char_in a cls) eqn:C; [|congruence].
    apply IH; lia.
Qed.

(** On a character outside the class the loop does not move. *)
Lemma skip_while_stay (left : nat) (d : string) (pos : nat) (c : ascii) :
  String.get pos d = Some c -> char_in c cls = false ->
  skip_while cls left d pos = pos.
Proof. intros G C; destruct left; simpl; [reflexivity|]. now rewrite G, C. Qed.

(** A run of [n] characters of the class, ended by the end of the text or
    by a character outside the class, is stepped over exactly. *)
Lemma skip_while_run (left : nat) (d : string) (pos n : nat) :
  (forall i, i < n -> exists c, String.get (pos + i) d = Some c /\ char_in c cls = true) ->
  (forall c, String.get (pos + n) d = Some c -> char_in c cls = false) ->
  left = String.length d - pos ->
  skip_while cls left d pos = pos + n.
Proof.
  revert left pos; induction n as [|n IH]; intros left pos Hrun Hend Hleft.
  - rewrite Nat.add_0_r in *. destruct left as [|left]; simpl; [reflexivity|].
    destruct (String.get pos d) as [c|] eqn:G; [|reflexivity].
    now rewrite (Hend c eq_refl).
  - destruct (Hrun 0 ltac:(lia)) as (c & G & C). rewrite Nat.add_0_r in G.
    pose proof (get_Some_lt _ _ _ G) as Hlt.
    destruct left as [|left]; [lia|]. simpl. rewrite G, C.
    rewrite (IH left (S pos)); [lia| | |lia].
    + intros i Hi. destruct (Hrun (S i) ltac:(lia)) as (c' & G' & C').
      exists c'. split; [|exact C']. rewrite <- G'. f_equal; lia.
    + intros c' G'. apply Hend. rewrite <- G'. f_equal; lia.
Qed.

End Skip.

Lemma skip_seps_ge (d : string) (pos : nat) : pos <= skip_seps d pos.
Proof. apply skip_while_ge. Qed.

Lemma skip_numbers_ge (d : string) (pos : nat) : pos <= skip_numbers d pos.
Proof. apply skip_while_ge. Qed.

Lemma skip_seps_le (d : string) (pos : nat) :
  pos <= String.length d -> skip_seps d pos <= String.length d.
Proof. intros H; unfold skip_seps; pose proof (skip_while_le sep_chars (String.length d - pos) d pos); lia. Qed.

Lemma skip_numbers_le (d : string) (pos : nat) :
  pos <= String.length d -> skip_numbers d pos <= String.length d.
Proof. intros H; unfold skip_numbers; pose proof (skip_while_le numbers (String.length d - pos) d pos); lia. Qed.

Lemma skip_seps_idem (d : string) (pos : nat) :
  skip_seps d (skip_seps d pos) = skip_seps d pos.
Proof.
  destruct (String.get (skip_seps d pos) d) as [c|] eqn:G.
  - unfold skip_seps at 1. eapply skip_while_stay; [exact G|].
    exact (skip_while_stop sep_chars d pos c G).
  - apply get_None_ge in G. unfold skip_seps at 1.
    replace (String.length d - skip_seps d pos) with 0 by lia. reflexivity.
Qed.

(** ** The number scanner, case by case *)

Lemma index_get (d : string) (pos : nat) (c : ascii) :
  String.get pos d = Some c -> index d pos = Ok c.
Proof. unfold index; now intros ->. Qed.

Lemma index_None (d : string) (pos : nat) :
  String.get pos d = None -> index d pos = Raise IndexError.
Proof. unfold index; now intros ->. Qed.

Lemma parse_number_scan (d : string) (pos : nat) :
  number_scan d pos (parse_number d pos).
Proof.
  unfold parse_number.
  destruct (skip_seps d pos <? String.length d) eqn:L; cbn [negb].
  2:{ apply Nat.ltb_ge in L. now apply scan_end. }
  apply Nat.ltb_lt in L.
  destruct (get_lt_Some _ _ L) as [c0 G0].
  rewrite (index_get _ _ _ G0); cbn [bind].
  destruct (char_in c0 numberic_chars) eqn:C0; cbn [negb].
  2:{ unfold raise_unexpected_char. rewrite (index_get _ _ _ G0); cbn [bind].
      now apply scan_bad_start. }
  assert (A : (if Ascii.eqb c0 minus_sign then S (skip_seps d pos) else skip_seps d pos)
              = after_sign d (skip_seps d pos)).
  { unfold after_sign; now rewrite G0. }
  rewrite A.
  destruct (String.get (after_sign d (skip_seps d pos)) d) as [c1|] eqn:G1.
  2:{ rewrite (index_None _ _ G1); cbn [bind]. eapply scan_sign_last; eauto. }
  rewrite (index_get _ _ _ G1); cbn [bind].
  destruct (char_in c1 numbers) eqn:C1; cbn [negb].
  2:{ unfold raise_unexpected_char. rewrite (index_get _ _ _ G1); cbn [bind].
      eapply scan_no_digit; eauto. }
  set (p1 := skip_numbers d (after_sign d (skip_seps d pos))).
  destruct (String.get p1 d) as [cp|] eqn:Gp.
  - pose proof (get_Some_lt _ _ _ Gp) as Lp. apply Nat.ltb_lt in Lp. rewrite Lp.
    rewrite (index_get _ _ _ Gp); cbn [bind].
    destruct (Ascii.eqb cp decimal_point) eqn:Ep.
    + apply Ascii.eqb_eq in Ep; subst cp.
      destruct (String.get (S p1) d) as [c2|] eqn:G2.
      2:{ rewrite (index_None _ _ G2); cbn [bind]. eapply scan_point_last; eauto. }
      rewrite (index_get _ _ _ G2); cbn [bind].
      destruct (char_in c2 numbers) eqn:C2; cbn [negb].
      2:{ unfold raise_unexpected_char. rewrite (index_get _ _ _ G2); cbn [bind].
          eapply scan_point_no_digit; eauto. }
      eapply scan_float; eauto.
    + eapply scan_int; eauto. fold p1. rewrite Gp. intros [= ->].
      now rewrite Ascii.eqb_refl in Ep.
  - assert (Lp : (p1 <? String.length d) = false).
    { apply Nat.ltb_ge. now apply get_None_ge. }
    rewrite Lp; cbn [bind].
    eapply scan_int; eauto. fold p1. now rewrite Gp.
Qed.

(** ** The case view decides the result *)

Lemma number_scan_parse (d : string) (pos : nat) (r : result (nat * number)) :
  number_scan d pos r -> parse_number d pos = r.
Proof.
  intros H. pose proof (parse_number_scan d pos) as P.
  destruct H; inversion P; subst; try congruence;
    try (match goal with
         | G : String.get ?p ?d = Some _, L : String.length ?d <= ?p |- _ =>
             apply get_Some_lt in G; lia
         end).
Qed.

(** ** Inversion of the monad *)

Lemma bind_Ok_inv {A B : Type} (r : result A) (k : A -> result B) (b : B) :
  bind r k = Ok b -> exists a, r = Ok a /\ k a = Ok b.
Proof. destruct r as [a| |]; simpl; intros H; [now exists a|discriminate..]. Qed.

Lemma bind_OutOfFuel_inv {A B : Type} (r : result A) (k : A -> result B) :
  bind r k = OutOfFuel -> r = OutOfFuel \/ exists a, r = Ok a /\ k a = OutOfFuel.
Proof. destruct r as [a| |]; simpl; intros H; [right; now exists a|discriminate|now left]. Qed.

Lemma bind_Raise_inv {A B : Type} (r : result A) (k : A -> result B) (e : exn) :
  bind r k = Raise e -> r = Raise e \/ exists a, r = Ok a /\ k a = Raise e.
Proof. destruct r as [a|e'|]; simpl; intros H; [right; now exists a|left; congruence|discriminate]. Qed.

Ltac inv H := inversion H; subst; clear H.

(** Splits a hypothesis [bind r k = Ok b] into its two steps. *)
Ltac bind_ok H :=
  let a := fresh "a" in
  let H1 := fresh "Hstep" in
  apply bind_Ok_inv in H; destruct H as (a & H1 & H).

(** ** Cursor progress and totality *)

Lemma skip_while_move (cls : string) (d : string) (pos : nat) (c : ascii) :
  String.get pos d = Some c -> char_in c cls = true ->
  pos < skip_while cls (String.length d - pos) d pos.
Proof.
  intros G C. pose proof (get_Some_lt _ _ _ G) as L.
  destruct (String.length d - pos) as [|left] eqn:E; [lia|].
  simpl. rewrite G, C. pose proof (skip_while_ge cls left d (S pos)). lia.
Qed.

Lemma after_sign_ge (d : string) (start : nat) : start <= after_sign d start.
Proof.
  unfold after_sign. destruct (String.get start d) as [c|]; [|lia].
  destruct (Ascii.eqb c minus_sign); lia.
Qed.

Lemma parse_number_progress (d : string) (pos pos' : nat) (v : number) :
  parse_number d pos = Ok (pos', v) -> pos < pos' <= String.length d.
Proof.
  intros H. pose proof (parse_number_scan d pos) as Sc. rewrite H in Sc.
  pose proof (skip_seps_ge d pos) as G0.
  pose proof (after_sign_ge d (skip_seps d pos)) as G1.
  inversion Sc as [ | | | | c0 c1 r H0 C0 H1 C1 Hp Hr | | | c0 c1 c2 r H0 C0 H1 C1 Hp H2 C2 Hr].
  - destruct (int _); inv Hr.
    pose proof (skip_while_move numbers d _ c1 H1 C1) as M. fold (skip_numbers d (after_sign d (skip_seps d pos))) in M.
    pose proof (get_Some_lt _ _ _ H1).
    pose proof (skip_numbers_le d (after_sign d (skip_seps d pos))). lia.
  - destruct (float _); inv Hr.
    pose proof (skip_numbers_ge d (after_sign d (skip_seps d pos))).
    pose proof (skip_while_move numbers d _ c2 H2 C2) as M.
    fold (skip_numbers d (S (skip_numbers d (after_sign d (skip_seps d pos))))) in M.
    pose proof (get_Some_lt _ _ _ H2).
    pose proof (skip_numbers_le d (S (skip_numbers d (after_sign d (skip_seps d pos))))). lia.
Qed.

Lemma parse_number_fuel (d : string) (pos : nat) : parse_number d pos <> OutOfFuel.
Proof.
  intros H. pose proof (parse_number_scan d pos) as Sc. rewrite H in Sc.
  inversion Sc as [ | | | | c0 c1 r H0 C0 H1 C1 Hp Hr | | | c0 c1 c2 r H0 C0 H1 C1 Hp H2 C2 Hr].
  - destruct (int _); discriminate.
  - destruct (float _); discriminate.
Qed.

Lemma parse_cooridate_progress (d : string) (pos pos' : nat) (xy : number * number) :
  parse_cooridate d pos = Ok (pos', xy) -> pos < pos' <= String.length d.
Proof.
  unfold parse_cooridate. intros H. bind_ok H. destruct a as [p1 x].
  apply parse_number_progress in Hstep.
  destruct (skip_seps d p1 <? String.length d) eqn:L; cbn [negb] in H; [|discriminate].
  bind_ok H. destruct a as [p2 y]. apply parse_number_progress in Hstep0.
  inv H. pose proof (skip_seps_ge d p1). pose proof (skip_seps_ge d (skip_seps d p1)). lia.
Qed.

Lemma parse_cooridate_fuel (d : string) (pos : nat) : parse_cooridate d pos <> OutOfFuel.
Proof.
  unfold parse_cooridate. intros H.
  apply bind_OutOfFuel_inv in H. destruct H as [H|([p1 x] & _ & H)].
  - now apply parse_number_fuel in H.
  - destruct (negb _); [discriminate|].
    apply bind_OutOfFuel_inv in H. destruct H as [H|([p2 y] & _ & H)].
    + now apply parse_number_fuel in H.
    + discriminate.
Qed.

(** ** The dispatcher *)

Lemma arity_dispatch (c : ascii) :
  arity c =
  if char_in c moveto_commands then Some 2
  else if char_in c curveto_commands then Some 6
  else if char_in c smooth_curveto_commands then Some 4
  else None.
Proof. destruct c as [[] [] [] [] [] [] [] []]; reflexivity. Qed.

Lemma commands_dispatch (c : ascii) :
  char_in c commands =
  char_in c moveto_commands || char_in c curveto_commands
  || char_in c smooth_curveto_commands.
Proof. unfold commands. now rewrite !char_in_app, orb_assoc. Qed.

Lemma parse_command_Ok (c : ascii) (d : string) (pos pos' : nat) (pc : PathCommand) :
  parse_command c d pos = Ok (pos', pc) ->
  command pc = c /\ well_formed pc /\ pos < pos' <= String.length d.
Proof.
  unfold parse_command, well_formed. intros H.
  destruct (char_in c moveto_commands) eqn:M.
  { bind_ok H. destruct a as [p1 [x y]]. inv H. apply parse_cooridate_progress in Hstep.
    cbn [command args List.length]. rewrite arity_dispatch, M. auto. }
  destruct (char_in c curveto_commands) eqn:C.
  { bind_ok H. destruct a as [p1 [x1 y1]]. bind_ok H. destruct a as [p2 [x2 y2]].
    bind_ok H. destruct a as [p3 [x y]]. inv H.
    apply parse_cooridate_progress in Hstep, Hstep0, Hstep1.
    cbn [command args List.length]. rewrite arity_dispatch, M, C. repeat split; lia. }
  destruct (char_in c smooth_curveto_commands) eqn:S.
  { bind_ok H. destruct a as [p1 [x2 y2]]. bind_ok H. destruct a as [p2 [x y]]. inv H.
    apply parse_cooridate_progress in Hstep, Hstep0.
    cbn [command args List.length]. rewrite arity_dispatch, M, C, S. repeat split; lia. }
  discriminate.
Qed.

Lemma parse_command_fuel (c : ascii) (d : string) (pos : nat) :
  parse_command c d pos <> OutOfFuel.
Proof.
  unfold parse_command. intros H.
  repeat match type of H with
  | (if ?b then _ else _) = _ => destruct b
  | bind _ _ = OutOfFuel =>
      apply bind_OutOfFuel_inv in H; destruct H as [H|([? [? ?]] & _ & H)];
      [now apply parse_cooridate_fuel in H|]
  end; discriminate.
Qed.

Lemma parse_command_unsupported (c : ascii) (d : string) (pos : nat) :
  char_in c commands = false ->
  parse_command c d pos = Raise (UnsupportedCommand c pos d).
Proof.
  rewrite commands_dispatch, !orb_false_iff. intros [[M C] S].
  unfold parse_command. now rewrite M, C, S.
Qed.

(** ** The driver loop *)

(** One turn of the loop on a command letter. *)
Lemma parse_loop_letter (fuel : nat) (d : string) (pos : nat) (c : ascii)
    (last : option ascii) (acc : list PathCommand) :
  String.get pos d = Some c -> char_in c commands = true ->
  parse_loop (S fuel) d pos last acc =
  ('(pos', pc) <- parse_command c d (S pos) ;;
   parse_loop fuel d (skip_seps d pos') (Some c) (acc ++ [pc])).
Proof.
  intros G C. pose proof (get_Some_lt _ _ _ G) as L. apply Nat.ltb_lt in L.
  cbn [parse_loop]. rewrite L, (index_get _ _ _ G). cbn [bind]. now rewrite C.
Qed.

(** One turn of the loop on the first character of a number while a
    command is active: the command letter is elided. *)
Lemma parse_loop_elided (fuel : nat) (d : string) (pos : nat) (c last : ascii)
    (acc : list PathCommand) :
  String.get pos d = Some c -> char_in c commands = false ->
  char_in c numberic_chars = true ->
  parse_loop (S fuel) d pos (Some last) acc =
  ('(pos', pc) <- parse_command last d pos ;;
   parse_loop fuel d (skip_seps d pos') (Some last) (acc ++ [pc])).
Proof.
  intros G C N. pose proof (get_Some_lt _ _ _ G) as L. apply Nat.ltb_lt in L.
  cbn [parse_loop]. rewrite L, (index_get _ _ _ G). cbn [bind]. rewrite C, N.
  now replace (S pos - 1) with pos by lia.
Qed.

(** One turn of the loop on any other character: the diagnostic is built
    from the position after the character read. *)
Lemma parse_loop_other (fuel : nat) (d : string) (pos : nat) (c : ascii)
    (last : option ascii) (acc : list PathCommand) :
  String.get pos d = Some c -> char_in c commands = false ->
  (char_in c numberic_chars = false \/ last = None) ->
  parse_loop (S fuel) d pos last acc = raise_unexpected_char d (S pos).
Proof.
  intros G C N. pose proof (get_Some_lt _ _ _ G) as L. apply Nat.ltb_lt in L.
  cbn [parse_loop]. rewrite L, (index_get _ _ _ G). cbn [bind]. rewrite C.
  destruct N as [N| ->]; [now rewrite N|]. now destruct (char_in c numberic_chars).
Qed.

Lemma parse_loop_done (fuel : nat) (d : string) (pos : nat)
    (last : option ascii) (acc : list PathCommand) :
  String.length d <= pos -> parse_loop fuel d pos last acc = Ok acc.
Proof.
  intros L. apply Nat.ltb_ge in L. destruct fuel; cbn [parse_loop]; now rewrite L.
Qed.

Lemma turn_cases (d : string) (pos : nat) (last : option ascii) : turn d pos last.
Proof.
  destruct (String.get pos d) as [c|] eqn:G.
  - destruct (char_in c commands) eqn:C; [eapply turn_letter; eauto|].
    destruct (char_in c numberic_chars) eqn:N; [|eapply turn_other; eauto].
    destruct last as [l|]; [eapply turn_elided; eauto|eapply turn_other; eauto].
  - apply turn_done. now apply get_None_ge.
Qed.

(** The loop never runs out of fuel when it starts with as many turns as
    characters are left. *)
Lemma parse_loop_fuel (fuel : nat) (d : string) (pos : nat)
    (last : option ascii) (acc : list PathCommand) :
  String.length d - pos <= fuel -> parse_loop fuel d pos last acc <> OutOfFuel.
Proof.
  revert pos last acc; induction fuel as [|fuel IH]; intros pos last acc F.
  - rewrite parse_loop_done by lia. discriminate.
  - destruct (turn_cases d pos last) as [L|c G C|c l G C N ->|c G C N].
    + rewrite parse_loop_done by lia. discriminate.
    + rewrite (parse_loop_letter _ _ _ _ _ _ G C). intros H.
      apply bind_OutOfFuel_inv in H. destruct H as [H|([p' pc] & H1 & H)].
      * now apply parse_command_fuel in H.
      * apply parse_command_Ok in H1. revert H. apply IH.
        pose proof (skip_seps_ge d p'). lia.
    + rewrite (parse_loop_elided _ _ _ _ _ _ G C N). intros H.
      apply bind_OutOfFuel_inv in H. destruct H as [H|([p' pc] & H1 & H)].
      * now apply parse_command_fuel in H.
      * apply parse_command_Ok in H1. revert H. apply IH.
        pose proof (skip_seps_ge d p'). lia.
    + rewrite (parse_loop_other _ _ _ _ _ _ G C N). unfold raise_unexpected_char, index.
      destruct (String.get (S pos) d); discriminate.
Qed.

Theorem parse_d_property_total (d : string) : parse_d_property d <> OutOfFuel.
Proof.
  unfold parse_d_property. destruct (String.length d =? 0); [discriminate|].
  apply parse_loop_fuel. lia.
Qed.

(** The loop only appends well-formed records, and neither drops nor
    reorders the ones it already holds. *)
Lemma parse_loop_well_formed (fuel : nat) (d : string) (pos : nat)
    (last : option ascii) (acc cmds : list PathCommand) :
  Forall well_formed acc ->
  parse_loop fuel d pos last acc = Ok cmds -> Forall well_formed cmds.
Proof.
  revert pos last acc; induction fuel as [|fuel IH]; intros pos last acc W H.
  - cbn [parse_loop] in H. destruct (pos <? String.length d); [discriminate|].
    now inv H.
  - destruct (turn_cases d pos last) as [L|c G C|c l G C N ->|c G C N].
    + rewrite parse_loop_done in H by lia. now inv H.
    + rewrite (parse_loop_letter _ _ _ _ _ _ G C) in H. bind_ok H.
      destruct a as [p' pc]. apply parse_command_Ok in Hstep.
      eapply IH; [|exact H]. apply Forall_app; split; [exact W|].
      constructor; [tauto|constructor].
    + rewrite (parse_loop_elided _ _ _ _ _ _ G C N) in H. bind_ok H.
      destruct a as [p' pc]. apply parse_command_Ok in Hstep.
      eapply IH; [|exact H]. apply Forall_app; split; [exact W|].
      constructor; [tauto|constructor].
    + rewrite (parse_loop_other _ _ _ _ _ _ G C N) in H.
      unfold raise_unexpected_char, index in H.
      destruct (String.get (S pos) d); discriminate.
Qed.

(** ** C1: arity invariant *)

(** C1. Whenever [parse_d_property] succeeds, every record of the returned
    sequence carries exactly as many arguments as its command letter
    fixes: 2 for [M]/[m], 6 for [C]/[c], 4 for [S]/[s]. *)
Theorem C1_arity_invariant (d : string) (cmds : list PathCommand) :
  parse_d_property d = Ok cmds ->
  Forall (fun pc => arity (command pc) = Some (List.length (args pc))) cmds.
Proof.
  unfold parse_d_property. destruct (String.length d =? 0); [discriminate|].
  apply parse_loop_well_formed. constructor.
Qed.

Lemma C1_arity_invariant_witness :
  Forall (fun pc => arity (command pc) = Some (List.length (args pc)))
    [mkPathCommand "M" [PyInt 1; PyInt 2];
     mkPathCommand "c" [PyInt 1; PyInt 2; PyInt 3; PyInt 4; PyInt 5; PyInt 6];
     mkPathCommand "S" [PyInt 7; PyInt 8; PyInt 9; PyInt 0]].
Proof.
  apply (C1_arity_invariant "M1 2c1 2 3 4 5 6S7 8 9 0"). vm_compute. reflexivity.
Defined.

(** ** Where a decimal point can stand *)

Lemma get_substring_Some (s : string) (a n i : nat) (c : ascii) :
  String.get i (substring a n s) = Some c -> i < n /\ String.get (a + i) s = Some c.
Proof.
  revert a n i; induction s as [|b s IH]; intros a n i H.
  - destruct a, n; simpl in H; destruct i; discriminate.
  - destruct a as [|a]; simpl in H.
    + destruct n as [|n]; [destruct i; discriminate|].
      destruct i as [|i]; simpl in *; [split; [lia|exact H]|].
      apply (IH 0 n i) in H. simpl in H. split; [lia|tauto].
    + apply IH in H. simpl. exact H.
Qed.

Lemma char_in_slice (c : ascii) (d : string) (a b : nat) :
  char_in c (slice d a b) = true <->
  exists j, a <= j < b /\ String.get j d = Some c.
Proof.
  unfold slice. rewrite char_in_get. split.
  - intros [i H]. apply get_substring_Some in H. exists (a + i). split; [lia|tauto].
  - intros (j & J & H). exists (j - a). rewrite get_substring by lia.
    now replace (a + (j - a)) with j by lia.
Qed.

Lemma sep_not_point (c : ascii) : char_in c sep_chars = true -> c <> decimal_point.
Proof. intros H ->. discriminate. Qed.

Lemma digit_not_point (c : ascii) : char_in c numbers = true -> c <> decimal_point.
Proof. intros H ->. discriminate. Qed.

Lemma digit_not_minus (c : ascii) : char_in c numbers = true -> c <> minus_sign.
Proof. intros H ->. discriminate. Qed.

(** Between the cursor and the end of the first run of digits there is no
    decimal point. *)
Lemma no_point_before_digits_end (d : string) (pos : nat) (c0 c1 : ascii) (j : nat) :
  String.get (skip_seps d pos) d = Some c0 ->
  String.get (after_sign d (skip_seps d pos)) d = Some c1 ->
  char_in c1 numbers = true ->
  pos <= j < skip_numbers d (after_sign d (skip_seps d pos)) ->
  String.get j d <> Some decimal_point.
Proof.
  intros G0 G1 C1 J.
  destruct (Nat.lt_ge_cases j (skip_seps d pos)) as [A|A].
  { destruct (skip_while_inside sep_chars _ d pos j (conj (proj1 J) A)) as (c & G & C).
    rewrite G. intros [= ->]. discriminate. }
  destruct (Nat.lt_ge_cases j (after_sign d (skip_seps d pos))) as [B|B].
  { unfold after_sign in B, G1. rewrite G0 in B, G1.
    destruct (Ascii.eqb c0 minus_sign) eqn:E; [|lia].
    apply Ascii.eqb_eq in E. subst c0.
    replace j with (skip_seps d pos) by lia. rewrite G0. discriminate. }
  destruct (skip_while_inside numbers _ d _ j (conj B (proj2 J))) as (c & G & C).
  rewrite G. intros [= ->]. discriminate.
Qed.

(** ** C3: command-letter elision *)

Lemma numeric_not_command (c : ascii) :
  char_in c numberic_chars = true -> char_in c commands = false.
Proof. destruct c as [[] [] [] [] [] [] [] []]; try discriminate; reflexivity. Qed.

(** C3. A turn of the driver that reads a digit, a minus sign or a decimal
    point while a command is active dispatches that command again with the
    scan starting at the character read, appends the record and keeps the
    active command.  The active command is the last letter read: a turn
    that reads a command letter dispatches it with the scan starting after
    the letter and makes it the active command.  With no active command
    such a character is refused.  ["M0 0 1 1"] gives two [M] records (0,0)
    and (1,1); ["M0 0-1-1"] gives two [M] records (0,0) and (-1,-1); and in
    ["M1 2c1 2 3 4 5 6 7 8 9 10 11 12"] the numbers after the first [c]
    record go to a second [c] record, not to [M]. *)
Theorem C3_elision :
  (forall (fuel : nat) (d : string) (pos : nat) (c last : ascii)
          (acc : list PathCommand),
     String.get pos d = Some c ->
     char_in c numberic_chars = true ->
     parse_loop (S fuel) d pos (Some last) acc =
     ('(pos', pc) <- parse_command last d pos ;;
      parse_loop fuel d (skip_seps d pos') (Some last) (acc ++ [pc]))) /\
  (forall (fuel : nat) (d : string) (pos : nat) (c : ascii) (last : option ascii)
          (acc : list PathCommand),
     String.get pos d = Some c ->
     char_in c commands = true ->
     parse_loop (S fuel) d pos last acc =
     ('(pos', pc) <- parse_command c d (S pos) ;;
      parse_loop fuel d (skip_seps d pos') (Some c) (acc ++ [pc]))) /\
  (forall (fuel : nat) (d : string) (pos : nat) (c : ascii)
          (acc : list PathCommand),
     String.get pos d = Some c ->
     char_in c numberic_chars = true ->
     parse_loop (S fuel) d pos None acc = raise_unexpected_char d (S pos)) /\
  parse_d_property "M0 0 1 1"
  = Ok [mkPathCommand "M" [PyInt 0; PyInt 0]; mkPathCommand "M" [PyInt 1; PyInt 1]] /\
  parse_d_property "M0 0-1-1"
  = Ok [mkPathCommand "M" [PyInt 0; PyInt 0];
        mkPathCommand "M" [PyInt (-1); PyInt (-1)]] /\
  parse_d_property "M1 2c1 2 3 4 5 6 7 8 9 10 11 12"
  = Ok [mkPathCommand "M" [PyInt 1; PyInt 2];
        mkPathCommand "c" [PyInt 1; PyInt 2; PyInt 3; PyInt 4; PyInt 5; PyInt 6];
        mkPathCommand "c" [PyInt 7; PyInt 8; PyInt 9; PyInt 10; PyInt 11; PyInt 12]] /\
  parse_d_property "s1 2 3 4M5 6-7 8"
  = Ok [mkPathCommand "s" [PyInt 1; PyInt 2; PyInt 3; PyInt 4];
        mkPathCommand "M" [PyInt 5; PyInt 6];
        mkPathCommand "M" [PyInt (-7); PyInt 8]].
Proof.
  split; [|split; [|split; [|repeat split; vm_compute; reflexivity]]].
  - intros fuel d pos c last acc G N.
    apply (parse_loop_elided fuel d pos c last acc G (numeric_not_command c N) N).
  - intros fuel d pos c last acc G C.
    apply (parse_loop_letter fuel d pos c last acc G C).
  - intros fuel d pos c acc G N.
    apply (parse_loop_other fuel d pos c None acc G (numeric_not_command c N)).
    now right.
Qed.

Lemma C3_elision_witness :
  parse_loop 8 "M0 0 1 1" 5 (Some "M"%char) [mkPathCommand "M" [PyInt 0; PyInt 0]] =
  ('(pos', pc) <- parse_command "M" "M0 0 1 1" 5 ;;
   parse_loop 7 "M0 0 1 1" (skip_seps "M0 0 1 1" pos') (Some "M"%char)
              ([mkPathCommand "M" [PyInt 0; PyInt 0]] ++ [pc])).
Proof.
  apply (proj1 C3_elision 7 "M0 0 1 1" 5 "1"%char "M"%char); reflexivity.
Defined.

(** ** The literals handed to [int] and [float] *)

Lemma all_in_get (cls s : string) :
  all_in cls s = true <->
  forall i c, String.get i s = Some c -> char_in c cls = true.
Proof.
  induction s as [|a s IH]; simpl.
  - split; [intros _ [|i] c H; discriminate|reflexivity].
  - rewrite andb_true_iff, IH. split.
    + intros [A B] [|i] c H; [now inv H|eauto].
    + intros H. split; [apply (H 0 a eq_refl)|]. intros i c G. apply (H (S i) c G).
Qed.

Lemma all_in_app (cls s1 s2 : string) :
  all_in cls (s1 ++ s2) = all_in cls s1 && all_in cls s2.
Proof. induction s1; simpl; [reflexivity|]. now rewrite IHs1, andb_assoc. Qed.

Lemma substring_split (d : string) (a n m : nat) :
  substring a (n + m) d = substring a n d ++ substring (a + n) m d.
Proof.
  revert a n m; induction d as [|c d IH]; intros a n m.
  - destruct a, n, m; reflexivity.
  - destruct a as [|a]; simpl.
    + destruct n as [|n]; simpl; [reflexivity|]. now rewrite (IH 0 n m).
    + apply IH.
Qed.

Lemma substring_one (d : string) (a : nat) (c : ascii) :
  String.get a d = Some c -> substring a 1 d = String c EmptyString.
Proof.
  revert a; induction d as [|b d IH]; intros a H; [destruct a; discriminate|].
  destruct a as [|a]; simpl in *; [inv H; now destruct d|auto].
Qed.

Lemma slice_split (d : string) (a b c : nat) :
  a <= b <= c -> slice d a c = slice d a b ++ slice d b c.
Proof.
  intros H. unfold slice. replace (c - a) with ((b - a) + (c - b)) by lia.
  rewrite substring_split. now replace (a + (b - a)) with b by lia.
Qed.

Lemma slice_one (d : string) (a : nat) (c : ascii) :
  String.get a d = Some c -> slice d a (S a) = String c EmptyString.
Proof.
  intros H. unfold slice. replace (S a - a) with 1 by lia. now apply substring_one.
Qed.

(** The text stepped over by a skipping loop lies in its class. *)
Lemma slice_skipped (cls d : string) (pos : nat) :
  all_in cls (slice d pos (skip_while cls (String.length d - pos) d pos)) = true.
Proof.
  apply all_in_get. intros i c H. unfold slice in H.
  apply get_substring_Some in H. destruct H as [I G].
  destruct (skip_while_inside cls (String.length d - pos) d pos (pos + i)) as (c' & G' & C').
  - lia.
  - congruence.
Qed.

Lemma slice_nonempty (d : string) (a b : nat) (c : ascii) :
  String.get a d = Some c -> a < b ->
  exists t, slice d a b = String c t.
Proof.
  intros G L. rewrite (slice_split d a (S a) b) by lia.
  rewrite (slice_one _ _ _ G). now eexists.
Qed.

Lemma digits_uint (s : string) :
  all_in numbers s = true -> exists u, NilEmpty.uint_of_string s = Some u.
Proof.
  induction s as [|c s IH]; simpl; [now eexists|].
  rewrite andb_true_iff. intros [C A]. destruct (IH A) as [u ->].
  destruct c as [[] [] [] [] [] [] [] []]; try discriminate; now eexists.
Qed.

Lemma digits_uint_nonempty (c : ascii) (s : string) :
  all_in numbers (String c s) = true ->
  exists u, NilZero.uint_of_string (String c s) = Some u.
Proof. intros H. now apply digits_uint. Qed.

Lemma split_sign_digit (c : ascii) (s : string) :
  char_in c numbers = true -> split_sign (String c s) = (false, String c s).
Proof. destruct c as [[] [] [] [] [] [] [] []]; try discriminate; reflexivity. Qed.

Lemma split_sign_minus (s : string) : split_sign (String minus_sign s) = (true, s).
Proof. reflexivity. Qed.

(** [int] on digits, with or without a minus sign before them: the number
    the digits denote, unless there are more of them than the limit. *)
Lemma int_sign_digits (neg : bool) (c : ascii) (t : string) :
  all_in numbers (String c t) = true ->
  exists u, NilZero.uint_of_string (String c t) = Some u /\
    int ((if neg then String minus_sign EmptyString else EmptyString) ++ String c t)
    = if within_digit_limit (String c t)
      then Some (signed neg (N.of_uint u)) else None.
Proof.
  intros H. destruct (digits_uint_nonempty c t H) as [u U]. exists u. split; [exact U|].
  cbn [all_in] in H. apply andb_true_iff in H. destruct H as [C _].
  unfold int. destruct neg; cbn [append].
  - now rewrite split_sign_minus, U.
  - now rewrite (split_sign_digit c t C), U.
Qed.

Lemma is_digit_numbers (c : ascii) : is_digit c = char_in c numbers.
Proof. reflexivity. Qed.

Lemma span_digits_run (run rest : string) :
  all_in numbers run = true ->
  (forall c, String.get 0 rest = Some c -> char_in c numbers = false) ->
  span_digits (run ++ rest) = (run, rest).
Proof.
  intros A R. induction run as [|c run IH].
  - cbn [append]. destruct rest as [|b rest]; [reflexivity|].
    cbn [span_digits]. now rewrite is_digit_numbers, (R b eq_refl).
  - cbn [all_in] in A. apply andb_true_iff in A. destruct A as [C A].
    cbn [append span_digits]. now rewrite is_digit_numbers, C, (IH A).
Qed.

Lemma app_nil_r (s : string) : s ++ EmptyString = s.
Proof. induction s; simpl; congruence. Qed.

(** [float] succeeds on digits, a point and digits, with or without a
    leading minus sign, and reads the digits as one decimal mantissa. *)
Lemma float_point_digits (neg : bool) (c1 c2 : ascii) (ip fp : string) :
  all_in numbers (String c1 ip) = true ->
  all_in numbers (String c2 fp) = true ->
  exists u,
    NilEmpty.uint_of_string (String c1 ip ++ String c2 fp) = Some u /\
    float ((if neg then String minus_sign EmptyString else EmptyString)
             ++ String c1 ip ++ String decimal_point (String c2 fp))
    = Some (float_of_decimal neg (N.of_uint u)
              (0 - Z.of_nat (String.length (String c2 fp)))).
Proof.
  intros A1 A2.
  destruct (digits_uint (String c1 ip ++ String c2 fp)) as [u U].
  { now rewrite all_in_app, A1, A2. }
  exists u. split; [exact U|].
  assert (S1 : span_digits (String c1 ip ++ String decimal_point (String c2 fp))
               = (String c1 ip, String decimal_point (String c2 fp))).
  { apply span_digits_run; [exact A1|]. intros c [= <-]. reflexivity. }
  assert (S2 : span_digits (String c2 fp) = (String c2 fp, EmptyString)).
  { rewrite <- (app_nil_r (String c2 fp)) at 1.
    apply span_digits_run; [exact A2|]. intros c [=]. }
  assert (U' : NilZero.uint_of_string (String c1 ip ++ String c2 fp) = Some u) by exact U.
  assert (Sg : split_sign ((if neg then String minus_sign EmptyString else EmptyString)
                  ++ String c1 ip ++ String decimal_point (String c2 fp))
               = (neg, String c1 ip ++ String decimal_point (String c2 fp))).
  { destruct neg; [reflexivity|]. cbn [append]. apply split_sign_digit.
    cbn [all_in] in A1. now apply andb_true_iff in A1. }
  unfold float. rewrite Sg, S1. unfold decimal_point. rewrite S2, U'. reflexivity.
Qed.

Lemma digits_slice (d : string) (a : nat) (c : ascii) :
  String.get a d = Some c -> char_in c numbers = true ->
  exists t, slice d a (skip_numbers d a) = String c t /\
            all_in numbers (String c t) = true.
Proof.
  intros G C. pose proof (skip_while_move numbers d a c G C) as M.
  destruct (slice_nonempty d a (skip_numbers d a) c G M) as [t T].
  exists t. split; [exact T|]. rewrite <- T. apply slice_skipped.
Qed.

Lemma substring_zero (d : string) (a : nat) : substring a 0 d = EmptyString.
Proof. revert a; induction d as [|c d IH]; intros [|a]; simpl; auto. Qed.

(** The text from the start of a number to the start of its digits is the
    minus sign or nothing. *)
Lemma sign_slice (d : string) (start : nat) (c0 c1 : ascii) :
  String.get start d = Some c0 ->
  String.get (after_sign d start) d = Some c1 -> char_in c1 numbers = true ->
  slice d start (after_sign d start)
  = (if Ascii.eqb c0 minus_sign then String minus_sign EmptyString else EmptyString).
Proof.
  intros G0 G1 C1. unfold after_sign in *. rewrite G0 in *.
  destruct (Ascii.eqb c0 minus_sign) eqn:E.
  - apply Ascii.eqb_eq in E. subst c0. now apply slice_one.
  - unfold slice. rewrite Nat.sub_diag. apply substring_zero.
Qed.

(** The text of an integer literal as [parse_number] cuts it out: the
    minus sign or nothing, then the run of digits; and what [int] makes of
    it. *)
Lemma int_slice (d : string) (pos : nat) (c0 c1 : ascii) :
  String.get (skip_seps d pos) d = Some c0 ->
  String.get (after_sign d (skip_seps d pos)) d = Some c1 ->
  char_in c1 numbers = true ->
  exists ds u,
    slice d (after_sign d (skip_seps d pos))
            (skip_numbers d (after_sign d (skip_seps d pos))) = ds /\
    all_in numbers ds = true /\
    String.length ds = skip_numbers d (after_sign d (skip_seps d pos))
                       - after_sign d (skip_seps d pos) /\
    slice d (skip_seps d pos) (skip_numbers d (after_sign d (skip_seps d pos)))
    = (if Ascii.eqb c0 minus_sign then String minus_sign EmptyString else EmptyString)
        ++ ds /\
    NilZero.uint_of_string ds = Some u /\
    int (slice d (skip_seps d pos) (skip_numbers d (after_sign d (skip_seps d pos))))
    = if within_digit_limit ds
      then Some (signed (Ascii.eqb c0 minus_sign) (N.of_uint u)) else None.
Proof.
  intros H0 H1 C1.
  destruct (digits_slice d _ c1 H1 C1) as (t & T & A).
  pose proof (after_sign_ge d (skip_seps d pos)) as G1.
  pose proof (skip_numbers_ge d (after_sign d (skip_seps d pos))) as G2.
  pose proof (get_Some_lt _ _ _ H1) as L1.
  pose proof (skip_numbers_le d (after_sign d (skip_seps d pos)) ltac:(lia)) as L2.
  destruct (int_sign_digits (Ascii.eqb c0 minus_sign) c1 t A) as (u & U & I).
  exists (String c1 t), u. split; [exact T|]. split; [exact A|].
  assert (E : slice d (skip_seps d pos) (skip_numbers d (after_sign d (skip_seps d pos)))
              = (if Ascii.eqb c0 minus_sign then String minus_sign EmptyString
                 else EmptyString) ++ String c1 t).
  { rewrite (slice_split d _ (after_sign d (skip_seps d pos))) by lia.
    now rewrite (sign_slice d _ c0 c1 H0 H1 C1), T. }
  split; [|split; [exact E|split; [exact U|now rewrite E]]].
  rewrite <- T. unfold slice. apply length_substring. lia.
Qed.

(** The text of a literal with a point as [parse_number] cuts it out, and
    what [float] makes of it: the binary64 nearest to the decimal the
    digits denote. *)
Lemma float_slice (d : string) (pos : nat) (c0 c1 c2 : ascii) :
  String.get (skip_seps d pos) d = Some c0 ->
  String.get (after_sign d (skip_seps d pos)) d = Some c1 ->
  char_in c1 numbers = true ->
  String.get (skip_numbers d (after_sign d (skip_seps d pos))) d = Some decimal_point ->
  String.get (S (skip_numbers d (after_sign d (skip_seps d pos)))) d = Some c2 ->
  char_in c2 numbers = true ->
  exists ip fp u,
    slice d (skip_seps d pos)
      (skip_numbers d (S (skip_numbers d (after_sign d (skip_seps d pos)))))
    = (if Ascii.eqb c0 minus_sign then String minus_sign EmptyString else EmptyString)
        ++ ip ++ String decimal_point fp /\
    all_in numbers ip = true /\ all_in numbers fp = true /\
    NilZero.uint_of_string (ip ++ fp) = Some u /\
    float (slice d (skip_seps d pos)
             (skip_numbers d (S (skip_numbers d (after_sign d (skip_seps d pos))))))
    = Some (float_of_decimal (Ascii.eqb c0 minus_sign) (N.of_uint u)
              (- Z.of_nat (String.length fp))).
Proof.
  intros H0 H1 C1 Hp H2 C2.
  destruct (digits_slice d _ c1 H1 C1) as (t1 & T1 & A1).
  destruct (digits_slice d _ c2 H2 C2) as (t2 & T2 & A2).
  pose proof (after_sign_ge d (skip_seps d pos)) as G1.
  pose proof (skip_numbers_ge d (after_sign d (skip_seps d pos))) as G2.
  pose proof (skip_numbers_ge d (S (skip_numbers d (after_sign d (skip_seps d pos))))) as G3.
  destruct (float_point_digits (Ascii.eqb c0 minus_sign) c1 c2 t1 t2 A1 A2) as (u & U & F).
  exists (String c1 t1), (String c2 t2), u.
  assert (E : slice d (skip_seps d pos)
                (skip_numbers d (S (skip_numbers d (after_sign d (skip_seps d pos)))))
              = (if Ascii.eqb c0 minus_sign then String minus_sign EmptyString
                 else EmptyString)
                  ++ String c1 t1 ++ String decimal_point (String c2 t2)).
  { rewrite (slice_split d _ (after_sign d (skip_seps d pos))) by lia.
    rewrite (slice_split d (after_sign d (skip_seps d pos))
               (skip_numbers d (after_sign d (skip_seps d pos)))) by lia.
    rewrite (slice_split d (skip_numbers d (after_sign d (skip_seps d pos)))
               (S (skip_numbers d (after_sign d (skip_seps d pos))))) by lia.
    now rewrite (sign_slice d _ c0 c1 H0 H1 C1), T1, T2, (slice_one _ _ _ Hp). }
  split; [exact E|]. split; [exact A1|]. split; [exact A2|]. split; [exact U|].
  rewrite E, F. reflexivity.
Qed.

(** [parse_number] fails inside [int] or [float] in one case only: the
    text is an integer literal of more digits than the limit. *)
Lemma parse_number_ValueError (d : string) (pos : nat) :
  parse_number d pos = Raise ValueError <->
  (exists c1, String.get (after_sign d (skip_seps d pos)) d = Some c1 /\
              char_in c1 numbers = true) /\
  String.get (skip_numbers d (after_sign d (skip_seps d pos))) d <> Some decimal_point /\
  (int_max_str_digits
   < N.of_nat (skip_numbers d (after_sign d (skip_seps d pos))
               - after_sign d (skip_seps d pos)))%N.
Proof.
  split.
  - intros H. pose proof (parse_number_scan d pos) as Sc. rewrite H in Sc.
    inversion Sc as [ | | | | c0 c1 r H0 C0 H1 C1 Hp Hr | | | c0 c1 c2 r H0 C0 H1 C1 Hp H2 C2 Hr].
    + destruct (int_slice d pos c0 c1 H0 H1 C1) as (ds & u & _ & _ & Ln & _ & _ & I).
      rewrite I in Hr. unfold within_digit_limit in Hr. rewrite Ln in Hr.
      destruct (N.leb_spec (N.of_nat (skip_numbers d (after_sign d (skip_seps d pos))
                                      - after_sign d (skip_seps d pos)))
                           int_max_str_digits) as [L|L]; [discriminate|].
      split; [eauto|]. split; [exact Hp|exact L].
    + destruct (float_slice d pos c0 c1 c2 H0 H1 C1 Hp H2 C2) as (ip & fp & u & _ & _ & _ & _ & F).
      rewrite F in Hr. discriminate.
  - intros ((c1 & H1 & C1) & Hp & L).
    destruct (String.get (skip_seps d pos) d) as [c0|] eqn:H0.
    2:{ unfold after_sign in H1. rewrite H0 in H1. congruence. }
    assert (C0 : char_in c0 numberic_chars = true).
    { unfold after_sign in H1. rewrite H0 in H1.
      destruct (Ascii.eqb c0 minus_sign) eqn:E.
      - apply Ascii.eqb_eq in E. now subst c0.
      - assert (c0 = c1) by congruence. subst c0. unfold numberic_chars.
        now rewrite char_in_app, C1. }
    apply number_scan_parse. apply (scan_int d pos c0 c1 _ H0 C0 H1 C1 Hp).
    destruct (int_slice d pos c0 c1 H0 H1 C1) as (ds & u & _ & _ & Ln & _ & _ & I).
    rewrite I. unfold within_digit_limit. rewrite Ln.
    apply N.leb_gt in L. now rewrite L.
Qed.

(** ** C2: integer and fractional values *)

(** C2. When [parse_number] succeeds it returns a cursor beyond the one it
    was given and a value decoded from the text between the end of the
    leading separators and the returned cursor.  The value is an [int]
    exactly when the consumed text holds no decimal point: the text is then
    an optional minus sign and digits, and the value is the number the
    digits denote, negated under the sign.  It is a [float] exactly when
    the text holds a point: the text is then an optional minus sign,
    digits, the point and digits, and the value is the binary64 nearest to
    the decimal they denote.  So [" -42,7"] scans to the integer -42,
    ["M-42 007"] parses to one [M] record of the integers -42 and 7,
    ["47.92,48.66"] scans to the float nearest to 47.92, and ["M1.5 2.25"]
    parses to one [M] record whose arguments are the floats 3/2 and 9/4. *)
Theorem C2_number_kind :
  (forall (d : string) (pos pos' : nat) (v : number),
     parse_number d pos = Ok (pos', v) ->
     pos <= skip_seps d pos < pos' /\ pos' <= String.length d /\
     match v with
     | PyInt z =>
         char_in decimal_point (slice d pos pos') = false /\
         int (slice d (skip_seps d pos) pos') = Some z /\
         exists (neg : bool) (ds : string) (u : uint),
           slice d (skip_seps d pos) pos' = sign_text neg ++ ds /\
           all_in numbers ds = true /\
           NilZero.uint_of_string ds = Some u /\
           z = (if neg then - Z.of_N (N.of_uint u) else Z.of_N (N.of_uint u))%Z
     | PyFloat x =>
         char_in decimal_point (slice d pos pos') = true /\
         float (slice d (skip_seps d pos) pos') = Some x /\
         exists (neg : bool) (ip fp : string) (u : uint),
           slice d (skip_seps d pos) pos'
           = sign_text neg ++ ip ++ String decimal_point fp /\
           all_in numbers ip = true /\ all_in numbers fp = true /\
           NilZero.uint_of_string (ip ++ fp) = Some u /\
           x = float_of_decimal neg (N.of_uint u) (- Z.of_nat (String.length fp))
     end) /\
  parse_number " -42,7" 0 = Ok (4, PyInt (-42)) /\
  parse_d_property "M-42 007" = Ok [mkPathCommand "M" [PyInt (-42); PyInt 7]] /\
  parse_number "47.92,48.66" 0
  = Ok (5, PyFloat (S754_finite false 6744140441987318 (-47))) /\
  (exists a b : spec_float,
     parse_d_property "M1.5 2.25" = Ok [mkPathCommand "M" [PyFloat a; PyFloat b]] /\
     float_is a 3 2 = true /\ float_is b 9 4 = true).
Proof.
  split; [|split; [|split; [|split]]].
  - intros d pos pos' v H.
    pose proof (parse_number_progress _ _ _ _ H) as P.
    pose proof (parse_number_scan d pos) as Sc. rewrite H in Sc.
    pose proof (skip_seps_ge d pos) as G0.
    pose proof (after_sign_ge d (skip_seps d pos)) as G1.
    inversion Sc as [ | | | | c0 c1 r H0 C0 H1 C1 Hp Hr | | | c0 c1 c2 r H0 C0 H1 C1 Hp H2 C2 Hr].
    + destruct (int_slice d pos c0 c1 H0 H1 C1) as (ds & u & _ & A & _ & E & U & I').
      destruct (int _) as [z|] eqn:I; inv Hr.
      pose proof (skip_while_move numbers d _ c1 H1 C1) as M.
      fold (skip_numbers d (after_sign d (skip_seps d pos))) in M.
      split; [lia|]. split; [lia|]. split; [|split; [exact I|]].
      * destruct (char_in decimal_point (slice d pos _)) eqn:Ec; [|reflexivity].
        apply char_in_slice in Ec. destruct Ec as (j & J & G).
        exfalso. eapply no_point_before_digits_end; eauto.
      * exists (Ascii.eqb c0 minus_sign), ds, u.
        split; [exact E|]. split; [exact A|]. split; [exact U|].
        destruct (within_digit_limit ds); [|discriminate]. now inv I'.
    + destruct (float_slice d pos c0 c1 c2 H0 H1 C1 Hp H2 C2)
        as (ip & fp & u & E & A1 & A2 & U & F').
      destruct (float _) as [x|] eqn:F; inv Hr.
      pose proof (skip_while_move numbers d _ c1 H1 C1) as M.
      fold (skip_numbers d (after_sign d (skip_seps d pos))) in M.
      pose proof (skip_numbers_ge d (S (skip_numbers d (after_sign d (skip_seps d pos))))).
      split; [lia|]. split; [lia|]. split; [|split; [exact F|]].
      * apply char_in_slice. exists (skip_numbers d (after_sign d (skip_seps d pos))).
        split; [lia|exact Hp].
      * exists (Ascii.eqb c0 minus_sign), ip, fp, u. inv F'. auto.
  - vm_compute. reflexivity.
  - vm_compute. reflexivity.
  - vm_compute. reflexivity.
  - eexists; eexists. split; [vm_compute; reflexivity|]. split; vm_compute; reflexivity.
Qed.

Lemma C2_number_kind_witness :
  0 <= skip_seps " -042;" 0 < 5 /\ 5 <= String.length " -042;" /\
  char_in decimal_point (slice " -042;" 0 5) = false /\
  int (slice " -042;" (skip_seps " -042;" 0) 5) = Some (-42)%Z /\
  exists (neg : bool) (ds : string) (u : uint),
    slice " -042;" (skip_seps " -042;" 0) 5 = sign_text neg ++ ds /\
    all_in numbers ds = true /\
    NilZero.uint_of_string ds = Some u /\
    (-42 = if neg then - Z.of_N (N.of_uint u) else Z.of_N (N.of_uint u))%Z.
Proof.
  apply (proj1 C2_number_kind " -042;" 0 5 (PyInt (-42))).
  vm_compute. reflexivity.
Defined.

(** ** Which exceptions can escape *)

Lemma raise_unexpected_char_raises {A : Type} (d : string) (pos : nat) :
  exists e, @raise_unexpected_char A d pos = Raise e /\ scanner_exn e = true.
Proof.
  unfold raise_unexpected_char, index. destruct (String.get pos d); simpl; eauto.
Qed.

Lemma scanner_exn_scan_failure (e : exn) :
  scanner_exn e = true -> scan_failure e = true.
Proof. now destruct e. Qed.

Lemma parse_number_raises (d : string) (pos : nat) (e : exn) :
  parse_number d pos = Raise e -> scan_failure e = true.
Proof.
  intros H. pose proof (parse_number_scan d pos) as Sc. rewrite H in Sc.
  inversion Sc as [ | | | | c0 c1 r H0 C0 H1 C1 Hp Hr | | | c0 c1 c2 r H0 C0 H1 C1 Hp H2 C2 Hr];
    try reflexivity.
  - destruct (int _); inv Hr. reflexivity.
  - destruct (float _); inv Hr. reflexivity.
Qed.

Lemma parse_cooridate_raises (d : string) (pos : nat) (e : exn) :
  parse_cooridate d pos = Raise e -> scan_failure e = true.
Proof.
  unfold parse_cooridate. intros H.
  apply bind_Raise_inv in H. destruct H as [H|([p1 x] & _ & H)].
  - now apply parse_number_raises in H.
  - destruct (negb _); [now inv H|].
    apply bind_Raise_inv in H. destruct H as [H|([p2 y] & _ & H)].
    + now apply parse_number_raises in H.
    + discriminate.
Qed.

Lemma parse_command_raises (c : ascii) (d : string) (pos : nat) (e : exn) :
  char_in c commands = true ->
  parse_command c d pos = Raise e -> scan_failure e = true.
Proof.
  rewrite commands_dispatch. unfold parse_command. intros C H.
  repeat match type of H with
  | (if ?b then _ else _) = _ => destruct b
  | bind _ _ = Raise _ =>
      apply bind_Raise_inv in H; destruct H as [H|([? [? ?]] & _ & H)];
      [now apply parse_cooridate_raises in H|]
  end; discriminate.
Qed.

Lemma parse_loop_raises (fuel : nat) (d : string) (pos : nat)
    (last : option ascii) (acc : list PathCommand) (e : exn) :
  supported last ->
  parse_loop fuel d pos last acc = Raise e -> scan_failure e = true.
Proof.
  revert pos last acc; induction fuel as [|fuel IH]; intros pos last acc Sp H.
  - cbn [parse_loop] in H. destruct (pos <? String.length d); discriminate.
  - destruct (turn_cases d pos last) as [L|c G C|c l G C N ->|c G C N].
    + rewrite parse_loop_done in H by lia. discriminate.
    + rewrite (parse_loop_letter _ _ _ _ _ _ G C) in H.
      apply bind_Raise_inv in H. destruct H as [H|([p' pc] & _ & H)].
      * now apply parse_command_raises in H.
      * now apply IH in H.
    + rewrite (parse_loop_elided _ _ _ _ _ _ G C N) in H.
      apply bind_Raise_inv in H. destruct H as [H|([p' pc] & _ & H)].
      * now apply parse_command_raises in H.
      * now apply IH in H.
    + rewrite (parse_loop_other _ _ _ _ _ _ G C N) in H.
      destruct (@raise_unexpected_char_raises (list PathCommand) d (S pos)) as (e' & E & Se).
      rewrite E in H. inv H. now apply scanner_exn_scan_failure.
Qed.

Lemma length_zero (d : string) : String.length d = 0 <-> d = EmptyString.
Proof. destruct d; simpl; split; intros H; try reflexivity; discriminate. Qed.

(** What [parse_d_property] can raise: [EmptyInput] on the empty text and
    nothing else there; a scanner failure on any other text. *)
Lemma parse_d_property_raises (d : string) (e : exn) :
  parse_d_property d = Raise e ->
  (d = EmptyString /\ e = EmptyInput) \/ (d <> EmptyString /\ scan_failure e = true).
Proof.
  unfold parse_d_property. destruct (String.length d =? 0) eqn:L; intros H.
  - left. apply Nat.eqb_eq, length_zero in L. inv H. auto.
  - right. apply Nat.eqb_neq in L. rewrite length_zero in L. split; [exact L|].
    apply parse_loop_raises in H; simpl; auto.
Qed.

(** Failures abort the whole parse: what the dispatcher raises in a turn of
    the loop is what the loop raises. *)
Lemma parse_loop_propagates (fuel : nat) (d : string) (pos : nat) (c l : ascii)
    (last : option ascii) (acc : list PathCommand) (e : exn) :
  String.get pos d = Some c ->
  (char_in c commands = true /\ l = c /\ parse_command c d (S pos) = Raise e) \/
  (char_in c numberic_chars = true /\ last = Some l /\ parse_command l d pos = Raise e) ->
  parse_loop (S fuel) d pos last acc = Raise e.
Proof.
  intros G [(C & _ & H)|(N & -> & H)].
  - rewrite (parse_loop_letter _ _ _ _ _ _ G C), H. reflexivity.
  - rewrite (parse_loop_elided _ _ _ _ _ _ G (numeric_not_command c N) N), H. reflexivity.
Qed.

(** ** C4: letters outside the supported set *)

(** C4, as stated, fails: ["Z"] and ["M0 0L1 1"] hold a letter outside the
    supported set at a command position and neither parse ends in
    [UnsupportedCommand]. *)
Lemma C4_counterexample :
  ~ (exists c pos s, parse_d_property "Z" = Raise (UnsupportedCommand c pos s)) /\
  ~ (exists c pos s, parse_d_property "M0 0L1 1" = Raise (UnsupportedCommand c pos s)).
Proof.
  split; intros (c & pos & s & H); vm_compute in H; discriminate.
Qed.

(** C4, amended. [parse_command] answers [UnsupportedCommand], naming the
    letter and the position, when it is called with a letter outside the
    supported set.  [parse_d_property] never does: it dispatches supported
    letters only, and a text whose first character after the leading
    separators is outside the supported set makes it fail otherwise, as
    does a non-numeric character outside the set read by any later turn of
    the loop. *)
Theorem C4_unsupported_letter :
  (forall (c : ascii) (d : string) (pos : nat),
     char_in c commands = false ->
     parse_command c d pos = Raise (UnsupportedCommand c pos d)) /\
  (forall (d : string) (c : ascii) (pos : nat) (s : string),
     parse_d_property d <> Raise (UnsupportedCommand c pos s)) /\
  (forall (d : string) (c : ascii),
     String.get (skip_seps d 0) d = Some c -> char_in c commands = false ->
     exists e, parse_d_property d = Raise e /\ scanner_exn e = true) /\
  (forall (fuel : nat) (d : string) (pos : nat) (c : ascii) (last : option ascii)
          (acc : list PathCommand),
     String.get pos d = Some c -> char_in c commands = false ->
     char_in c numberic_chars = false ->
     exists e, parse_loop (S fuel) d pos last acc = Raise e /\ scanner_exn e = true).
Proof.
  split; [exact parse_command_unsupported|]. split; [|split].
  - intros d c pos s H. apply parse_d_property_raises in H.
    destruct H as [[_ H]|[_ H]]; discriminate.
  - intros d c G C. pose proof (get_Some_lt _ _ _ G) as L.
    unfold parse_d_property.
    destruct (String.length d) as [|n] eqn:E; [lia|]. cbn [Nat.eqb].
    rewrite skip_seps_idem.
    rewrite (parse_loop_other n d _ c None [] G C (or_intror eq_refl)).
    apply raise_unexpected_char_raises.
  - intros fuel d pos c last acc G C N.
    rewrite (parse_loop_other fuel d pos c last acc G C (or_introl N)).
    apply raise_unexpected_char_raises.
Qed.

Lemma C4_unsupported_letter_witness :
  parse_command "L" "L1 2" 1 = Raise (UnsupportedCommand "L" 1 "L1 2").
Proof.
  apply (proj1 C4_unsupported_letter "L"%char "L1 2" 1). reflexivity.
Defined.

(** ** C5: the driver's diagnostic *)

(** C5 fails on the code.  The driver builds its diagnostic after it has
    advanced the cursor: on ["ZM"] it names ["M"] at offset 1 where the
    character read is ["Z"] at offset 0, and on ["Z"], where the character
    read is the last one, building the diagnostic is an [IndexError]. *)
Theorem C5_driver_diagnostic :
  parse_d_property "ZM" = Raise (UnexpectedChar "M" 1 "ZM") /\
  parse_d_property "Z" = Raise IndexError /\
  parse_d_property "M1 2 x" = Raise IndexError.
Proof. repeat split; vm_compute; reflexivity. Qed.

(** ** C6: a sign or a point with no digit after it *)

(** When a character follows the sign or the point and is no digit, the
    failure is the module's own diagnostic and names that character. *)
Lemma parse_number_no_digit (d : string) (pos : nat) (c0 c1 : ascii) :
  String.get (skip_seps d pos) d = Some c0 ->
  char_in c0 numberic_chars = true ->
  String.get (after_sign d (skip_seps d pos)) d = Some c1 ->
  char_in c1 numbers = false ->
  parse_number d pos = Raise (UnexpectedChar c1 (after_sign d (skip_seps d pos)) d).
Proof.
  intros G0 C0 G1 C1. pose proof (parse_number_scan d pos) as Sc.
  inversion Sc as [L| | | | c0' c1' r H0 _ H1 C1' _ _ | c0' c1' H0 _ H1 C1' _ _
                   | c0' c1' c2 H0 _ H1 C1' _ _ _| c0' c1' c2 r H0 _ H1 C1' _ _ _ _];
    try congruence.
  apply get_Some_lt in G0. lia.
Qed.

(** C6 fails on the code.  When the input ends right after the minus sign
    or right after the decimal point, [parse_number] reads [d[pos]] past
    the end: the failure is an [IndexError], not the unexpected-character
    diagnostic. *)
Theorem C6_sign_or_point_at_end :
  parse_number "-" 0 = Raise IndexError /\
  parse_number "1." 0 = Raise IndexError /\
  parse_d_property "M-" = Raise IndexError /\
  parse_d_property "M1." = Raise IndexError.
Proof. repeat split; vm_compute; reflexivity. Qed.

(** ** C7: empty and truncated inputs *)

Lemma parse_number_skip (d : string) (pos : nat) :
  parse_number d (skip_seps d pos) = parse_number d pos.
Proof. unfold parse_number. now rewrite skip_seps_idem. Qed.

Lemma scan_numbers_le (k : nat) (d : string) (pos p : nat) :
  pos <= String.length d -> scan_numbers k d pos = Ok p -> p <= String.length d.
Proof.
  revert pos; induction k as [|k IH]; intros pos L H; simpl in H; [now inv H|].
  bind_ok H. destruct a as [p1 v]. apply parse_number_progress in Hstep.
  apply (IH p1); [lia|exact H].
Qed.

Lemma parse_number_exhausted (d : string) (pos : nat) :
  String.length d <= skip_seps d pos ->
  parse_number d pos = Raise (UnexpectedEnd (skip_seps d pos) d).
Proof. intros H. apply Nat.ltb_ge in H. unfold parse_number. now rewrite H. Qed.

Lemma arity_supported (c : ascii) (n : nat) :
  arity c = Some n -> char_in c commands = true.
Proof.
  rewrite arity_dispatch, commands_dispatch.
  destruct (char_in c moveto_commands), (char_in c curveto_commands),
    (char_in c smooth_curveto_commands); try reflexivity; discriminate.
Qed.

(** The first character of a number whose digits start at [after_sign]. *)
Lemma number_start (d : string) (start : nat) (c1 : ascii) :
  String.get (after_sign d start) d = Some c1 -> char_in c1 numbers = true ->
  exists c0, String.get start d = Some c0 /\ char_in c0 numberic_chars = true.
Proof.
  unfold after_sign. intros H1 C1.
  destruct (String.get start d) as [c0|] eqn:H0; [|congruence].
  exists c0. split; [reflexivity|].
  destruct (Ascii.eqb c0 minus_sign) eqn:E.
  - apply Ascii.eqb_eq in E. now subst c0.
  - assert (c0 = c1) by congruence. subst c0. unfold numberic_chars.
    now rewrite char_in_app, C1.
Qed.

(** [parse_number] reads past the end of the text, and fails with the
    interpreter's [IndexError], exactly when the text ends right after the
    sign or right after the point of the number. *)
Lemma parse_number_IndexError (d : string) (pos : nat) :
  parse_number d pos = Raise IndexError <-> ends_in_number d pos.
Proof.
  split.
  - intros H. pose proof (parse_number_scan d pos) as Sc. rewrite H in Sc.
    inversion Sc as [ | |c0 H0 C0 H1| |c0 c1 r H0 C0 H1 C1 Hp Hr|c0 c1 H0 C0 H1 C1 Hp H2
                     | |c0 c1 c2 r H0 C0 H1 C1 Hp H2 C2 Hr].
    + left. unfold after_sign in H1. rewrite H0 in H1.
      destruct (Ascii.eqb c0 minus_sign) eqn:E; [|congruence].
      apply Ascii.eqb_eq in E. subst c0. split; [exact H0|].
      apply get_Some_lt in H0. apply get_None_ge in H1. lia.
    + destruct (int _); discriminate.
    + right. exists c1. split; [exact H1|]. split; [exact C1|]. split; [exact Hp|].
      apply get_Some_lt in Hp. apply get_None_ge in H2. lia.
    + destruct (float _); discriminate.
  - intros [[H0 L]|(c1 & H1 & C1 & Hp & L)]; apply number_scan_parse.
    + apply (scan_sign_last d pos minus_sign H0 eq_refl).
      unfold after_sign. rewrite H0, Ascii.eqb_refl.
      apply get_None_ge. lia.
    + destruct (number_start d _ c1 H1 C1) as (c0 & H0 & C0).
      apply (scan_point_last d pos c0 c1 H0 C0 H1 C1 Hp).
      apply get_None_ge. lia.
Qed.

(** A failure of the number [parse_cooridate] is at is its failure, or
    both numbers are there and the scan goes on after them. *)
Lemma parse_cooridate_fails (k : nat) (d : string) (pos p : nat) (e : exn) :
  scan_numbers k d pos = Ok p -> parse_number d p = Raise e ->
  (k < 2 /\ parse_cooridate d pos = Raise e) \/
  (exists k' p2 xy, k = 2 + k' /\ parse_cooridate d pos = Ok (p2, xy) /\
                    scan_numbers k' d p2 = Ok p).
Proof.
  intros H E. unfold parse_cooridate.
  destruct k as [|k]; simpl in H.
  { inv H. left. split; [lia|]. now rewrite E. }
  bind_ok H. destruct a as [p1 x]. rewrite Hstep. cbn [bind].
  destruct k as [|k]; simpl in H.
  { inv H. left. split; [lia|].
    destruct (skip_seps d p <? String.length d) eqn:L; cbn [negb].
    - now rewrite parse_number_skip, parse_number_skip, E.
    - apply Nat.ltb_ge in L. rewrite (parse_number_exhausted d p L) in E.
      inv E. reflexivity. }
  right. bind_ok H. destruct a as [p2 y].
  assert (L : skip_seps d p1 < String.length d).
  { destruct (Nat.lt_ge_cases (skip_seps d p1) (String.length d)) as [L|L]; [exact L|].
    rewrite (parse_number_exhausted d p1 L) in Hstep0. discriminate. }
  apply Nat.ltb_lt in L. rewrite L. cbn [negb].
  rewrite parse_number_skip, parse_number_skip, Hstep0. cbn [bind].
  exists k, p2, (x, y). auto.
Qed.

(** The dispatcher fails as the first number that fails among the [n] of
    the command. *)
Lemma parse_command_fails (c : ascii) (d : string) (pos n k p : nat) (e : exn) :
  arity c = Some n -> k < n ->
  scan_numbers k d pos = Ok p -> parse_number d p = Raise e ->
  parse_command c d pos = Raise e.
Proof.
  rewrite arity_dispatch. unfold parse_command. intros A K H E.
  destruct (char_in c moveto_commands).
  { inv A. destruct (parse_cooridate_fails k d pos p e H E)
      as [[_ ->]|(k' & p2 & xy & -> & _ & _)]; [reflexivity|lia]. }
  destruct (char_in c curveto_commands).
  { inv A. destruct (parse_cooridate_fails k d pos p e H E)
      as [[_ ->]|(k1 & p1 & [x1 y1] & -> & -> & H1)]; [reflexivity|]. cbn [bind].
    destruct (parse_cooridate_fails k1 d p1 p e H1 E)
      as [[_ ->]|(k2 & p2 & [x2 y2] & -> & -> & H2)]; [reflexivity|]. cbn [bind].
    destruct (parse_cooridate_fails k2 d p2 p e H2 E)
      as [[_ ->]|(k3 & p3 & xy & -> & _ & _)]; [reflexivity|lia]. }
  destruct (char_in c smooth_curveto_commands).
  { inv A. destruct (parse_cooridate_fails k d pos p e H E)
      as [[_ ->]|(k1 & p1 & [x1 y1] & -> & -> & H1)]; [reflexivity|]. cbn [bind].
    destruct (parse_cooridate_fails k1 d p1 p e H1 E)
      as [[_ ->]|(k2 & p2 & xy & -> & _ & _)]; [reflexivity|lia]. }
  discriminate.
Qed.

(** A turn of the loop whose command lacks a number fails as the scan of
    that number does. *)
Lemma parse_loop_number_fails (fuel : nat) (d : string) (pos q : nat) (c l : ascii)
    (last : option ascii) (acc : list PathCommand) (n k p : nat) (e : exn) :
  String.get pos d = Some c ->
  (char_in c commands = true /\ l = c /\ q = S pos) \/
  (char_in c numberic_chars = true /\ last = Some l /\ q = pos) ->
  arity l = Some n -> k < n ->
  scan_numbers k d q = Ok p -> parse_number d p = Raise e ->
  parse_loop (S fuel) d pos last acc = Raise e.
Proof.
  intros G T A K H E.
  pose proof (parse_command_fails l d q n k p e A K H E) as X.
  apply (parse_loop_propagates fuel d pos c l last acc _ G).
  destruct T as [(C & -> & ->)|(N & -> & ->)]; [left|right]; auto.
Qed.

Lemma parse_d_property_number_fails (d : string) (c : ascii) (n k p : nat) (e : exn) :
  String.get (skip_seps d 0) d = Some c ->
  arity c = Some n -> k < n ->
  scan_numbers k d (S (skip_seps d 0)) = Ok p -> parse_number d p = Raise e ->
  parse_d_property d = Raise e.
Proof.
  intros G A K H E. pose proof (get_Some_lt _ _ _ G) as L.
  unfold parse_d_property.
  destruct (String.length d =? 0) eqn:Z; [apply Nat.eqb_eq in Z; lia|].
  rewrite skip_seps_idem.
  replace (parse_loop (String.length d)) with (parse_loop (S (String.length d - 1)))
    by (f_equal; lia).
  apply (parse_loop_number_fails _ d (skip_seps d 0) (S (skip_seps d 0)) c c None []
           n k p e G); auto.
  left. split; [eapply arity_supported; eauto|auto].
Qed.

(** C7 fails on the code.  [parse_d_property] does fail with [EmptyInput]
    exactly on the empty text, and with [UnexpectedEnd], reported at the
    end of the text, when the text is exhausted where a number is due to
    start: the turn of the loop reading [c] at [pos] dispatches a command
    [l] of [n] numbers from [q] (the letter read, scanned from the next
    position, or the active command, scanned from the character read),
    [k < n] of them are there and only separators follow them; ["M1"] is
    such a text.  But when the text is exhausted inside the number that is
    due, right after its minus sign or right after its decimal point, the
    scan reads past the end of the text and what fails is an [IndexError],
    not [UnexpectedEnd]: ["M-"], ["M1."], ["M1 2 -"] and ["c1 2 3 4 5."]
    are such texts. *)
Theorem C7_empty_and_truncated :
  (forall d : string, parse_d_property d = Raise EmptyInput <-> d = EmptyString) /\
  (forall (fuel : nat) (d : string) (pos q : nat) (c l : ascii) (last : option ascii)
          (acc : list PathCommand) (n k p : nat),
     String.get pos d = Some c ->
     (char_in c commands = true /\ l = c /\ q = S pos) \/
     (char_in c numberic_chars = true /\ last = Some l /\ q = pos) ->
     arity l = Some n -> k < n ->
     scan_numbers k d q = Ok p ->
     (String.length d <= skip_seps d p ->
      parse_loop (S fuel) d pos last acc = Raise (UnexpectedEnd (String.length d) d)) /\
     (ends_in_number d p ->
      parse_loop (S fuel) d pos last acc = Raise IndexError)) /\
  (forall (d : string) (c : ascii) (n k p : nat),
     String.get (skip_seps d 0) d = Some c ->
     arity c = Some n -> k < n ->
     scan_numbers k d (S (skip_seps d 0)) = Ok p ->
     (String.length d <= skip_seps d p ->
      parse_d_property d = Raise (UnexpectedEnd (String.length d) d)) /\
     (ends_in_number d p -> parse_d_property d = Raise IndexError)) /\
  parse_d_property "M1" = Raise (UnexpectedEnd 2 "M1") /\
  parse_d_property "M-" = Raise IndexError /\
  parse_d_property "M1." = Raise IndexError /\
  parse_d_property "M1 2 -" = Raise IndexError /\
  parse_d_property "c1 2 3 4 5." = Raise IndexError.
Proof.
  split; [|split; [|split; [|repeat split; vm_compute; reflexivity]]].
  - intros d. split.
    + intros H. apply parse_d_property_raises in H.
      destruct H as [[H _]|[_ H]]; [exact H|discriminate].
    + intros ->. reflexivity.
  - intros fuel d pos q c l last acc n k p G T A K H.
    assert (Q : q <= String.length d).
    { apply get_Some_lt in G. destruct T as [(_ & _ & ->)|(_ & _ & ->)]; lia. }
    pose proof (scan_numbers_le k d q p Q H) as Pl.
    pose proof (skip_seps_le d p Pl) as Sl. split.
    + intros E. replace (String.length d) with (skip_seps d p) at 1 by lia.
      apply (parse_loop_number_fails fuel d pos q c l last acc n k p _ G T A K H).
      now apply parse_number_exhausted.
    + intros E.
      apply (parse_loop_number_fails fuel d pos q c l last acc n k p _ G T A K H).
      now apply parse_number_IndexError.
  - intros d c n k p G A K H.
    assert (Q : S (skip_seps d 0) <= String.length d) by (apply get_Some_lt in G; lia).
    pose proof (scan_numbers_le k d _ p Q H) as Pl.
    pose proof (skip_seps_le d p Pl) as Sl. split.
    + intros E. replace (String.length d) with (skip_seps d p) at 1 by lia.
      apply (parse_d_property_number_fails d c n k p _ G A K H).
      now apply parse_number_exhausted.
    + intros E. apply (parse_d_property_number_fails d c n k p _ G A K H).
      now apply parse_number_IndexError.
Qed.

Lemma C7_empty_and_truncated_witness :
  parse_d_property "C1 2 3 " = Raise (UnexpectedEnd 7 "C1 2 3 ") /\
  parse_d_property "C1 2 3." = Raise IndexError.
Proof.
  split.
  - apply (proj1 (proj2 (proj2 C7_empty_and_truncated)) "C1 2 3 " "C"%char 6 3 6);
      try reflexivity; vm_compute; repeat constructor.
  - apply (proj1 (proj2 (proj2 C7_empty_and_truncated)) "C1 2 3." "C"%char 6 2 4);
      try reflexivity; [vm_compute; repeat constructor|].
    right. exists "3"%char. repeat split; reflexivity.
Defined.

(** ** C8: separators *)

Lemma sep_chars_spec (c : ascii) :
  char_in c sep_chars = true <-> c = " "%char \/ c = ","%char \/ c = "010"%char.
Proof.
  unfold sep_chars; cbn [char_in]. rewrite !orb_true_iff, !Ascii.eqb_eq.
  intuition discriminate.
Qed.

(** C8. ["M 100 100"], ["M100,100"] and ["M100 100"] (and the same with a
    newline) all parse to the single record [M (100, 100)].  The
    separators are the space, the comma and the newline; [skip_seps] steps
    over any run of them and over nothing else, and stops at the end of
    the text or on the first character that is none of them. *)
Theorem C8_separator_tolerance :
  parse_d_property "M 100 100" = Ok [mkPathCommand "M" [PyInt 100; PyInt 100]] /\
  parse_d_property "M100,100" = Ok [mkPathCommand "M" [PyInt 100; PyInt 100]] /\
  parse_d_property "M100 100" = Ok [mkPathCommand "M" [PyInt 100; PyInt 100]] /\
  parse_d_property ("M100" ++ String "010" "100")
  = Ok [mkPathCommand "M" [PyInt 100; PyInt 100]] /\
  (forall c : ascii,
     char_in c sep_chars = true <-> c = " "%char \/ c = ","%char \/ c = "010"%char) /\
  (forall (d : string) (pos i : nat),
     pos <= i < skip_seps d pos ->
     exists c, String.get i d = Some c /\ char_in c sep_chars = true) /\
  (forall (d : string) (pos : nat) (c : ascii),
     String.get (skip_seps d pos) d = Some c -> char_in c sep_chars = false).
Proof.
  repeat split; try (vm_compute; reflexivity); try apply sep_chars_spec.
  - intros d pos i H. exact (skip_while_inside sep_chars _ d pos i H).
  - intros d pos c H. exact (skip_while_stop sep_chars d pos c H).
Qed.

Lemma C8_separator_tolerance_witness :
  exists c, String.get 1 "M ,100" = Some c /\ char_in c sep_chars = true.
Proof.
  apply (proj1 (proj2 (proj2 (proj2 (proj2 (proj2 C8_separator_tolerance)))))
           "M ,100" 1 1).
  vm_compute. split; repeat constructor.
Defined.

(** ** C10: texts of separators only *)

Lemma skip_seps_all (d : string) :
  all_in sep_chars d = true -> skip_seps d 0 = String.length d.
Proof.
  intros A. unfold skip_seps.
  rewrite (skip_while_run sep_chars _ d 0 (String.length d)); [reflexivity| | |reflexivity].
  - intros i I. destruct (get_lt_Some d i I) as [c G]. exists c. split; [exact G|].
    rewrite all_in_get in A. exact (A i c G).
  - intros c G. apply get_Some_lt in G. simpl in G. lia.
Qed.

(** C10. A non-empty text made of separators only parses, to the empty
    sequence of records. *)
Theorem C10_separators_only (d : string) :
  d <> EmptyString ->
  (forall i c, String.get i d = Some c -> char_in c sep_chars = true) ->
  parse_d_property d = Ok [].
Proof.
  intros N A. apply all_in_get in A. unfold parse_d_property.
  destruct (String.length d =? 0) eqn:Z.
  - apply Nat.eqb_eq, length_zero in Z. contradiction.
  - rewrite skip_seps_idem, (skip_seps_all d A). apply parse_loop_done. lia.
Qed.

Lemma C10_separators_only_witness :
  parse_d_property (String " " (String "," (String "010" " "))) = Ok [].
Proof.
  apply C10_separators_only; [discriminate|].
  apply (proj1 (all_in_get sep_chars _)). reflexivity.
Defined.

(** ** C9: formatting a value and scanning it again *)

Lemma app_assoc (a b c : string) : (a ++ b) ++ c = a ++ b ++ c.
Proof. induction a; simpl; congruence. Qed.

Lemma get_app_mid (pre rest : string) (i : nat) :
  String.get (String.length pre + i) (pre ++ rest) = String.get i rest.
Proof. apply get_app_r. Qed.

(** A run of digits between [pre] and [rest] is stepped over exactly when
    [rest] is empty or starts with no digit. *)
Lemma skip_numbers_app (pre run rest : string) :
  all_in numbers run = true ->
  (forall c, String.get 0 rest = Some c -> char_in c numbers = false) ->
  skip_numbers (pre ++ run ++ rest) (String.length pre)
  = String.length pre + String.length run.
Proof.
  intros A R. unfold skip_numbers.
  apply skip_while_run; [| |reflexivity].
  - intros i I. rewrite get_app_mid, get_app_l by exact I.
    destruct (get_lt_Some run i I) as [c G]. exists c. split; [exact G|].
    rewrite all_in_get in A. exact (A i c G).
  - intros c. rewrite get_app_mid.
    rewrite <- (Nat.add_0_r (String.length run)), get_app_mid. apply R.
Qed.

Lemma length_sign_text (neg : bool) :
  String.length (sign_text neg) = if neg then 1 else 0.
Proof. now destruct neg. Qed.

(** The start of [parse_number] on a text that begins with an optional
    minus sign and a digit: no separator to skip, and the digits start
    after the sign. *)
Lemma literal_start (neg : bool) (c1 : ascii) (t : string) :
  char_in c1 numbers = true ->
  let s := sign_text neg ++ String c1 t in
  exists c0,
    skip_seps s 0 = 0 /\ String.get 0 s = Some c0 /\
    char_in c0 numberic_chars = true /\
    (if Ascii.eqb c0 minus_sign then 1 else 0) = String.length (sign_text neg) /\
    String.get (String.length (sign_text neg)) s = Some c1.
Proof.
  intros C1 s. subst s. destruct neg; cbn [sign_text append String.length].
  - exists minus_sign. repeat split; try reflexivity.
  - exists c1. split; [|split; [reflexivity|split; [|split; [|reflexivity]]]].
    + unfold skip_seps. apply (skip_while_stay sep_chars _ (String c1 t) 0 c1 eq_refl).
      destruct c1 as [[] [] [] [] [] [] [] []]; try discriminate; reflexivity.
    + unfold numberic_chars. now rewrite char_in_app, C1.
    + destruct (Ascii.eqb c1 minus_sign) eqn:E; [|reflexivity].
      apply Ascii.eqb_eq in E. subst c1. discriminate.
Qed.

Lemma ltb_length_app (pre : string) (c : ascii) (rest : string) :
  (String.length pre <? String.length (pre ++ String c rest)) = true.
Proof. apply Nat.ltb_lt. rewrite length_app. simpl. lia. Qed.

(** [parse_number] on a text that is a whole integer literal. *)
Lemma parse_number_int_text (neg : bool) (c1 : ascii) (ip : string) :
  all_in numbers (String c1 ip) = true ->
  let s := sign_text neg ++ String c1 ip in
  parse_number s 0 =
  match int s with
  | Some z => Ok (String.length s, PyInt z)
  | None => Raise ValueError
  end.
Proof.
  intros A s.
  assert (C1 : char_in c1 numbers = true).
  { cbn [all_in] in A. now apply andb_true_iff in A. }
  destruct (literal_start neg c1 ip C1) as (c0 & F0 & G0 & N0 & E0 & G1).
  fold s in F0, G0, G1.
  assert (F4 : skip_numbers s (String.length (sign_text neg)) = String.length s).
  { unfold s. rewrite <- (app_nil_r (String c1 ip)) at 1.
    rewrite skip_numbers_app; [now rewrite length_app|exact A|intros c [=]]. }
  assert (L0 : (0 <? String.length s) = true).
  { apply Nat.ltb_lt. apply get_Some_lt in G0. exact G0. }
  unfold parse_number. rewrite F0, L0. cbn [negb].
  rewrite (index_get _ _ _ G0). cbn [bind]. rewrite N0. cbn [negb].
  rewrite E0, (index_get _ _ _ G1). cbn [bind]. rewrite C1. cbn [negb].
  rewrite F4, Nat.ltb_irrefl. cbn [bind].
  unfold slice. now rewrite Nat.sub_0_r, substring_all.
Qed.

(** [parse_number] on a text that is a whole literal with a point. *)
Lemma parse_number_float_text (neg : bool) (c1 c2 : ascii) (ip fp : string) :
  all_in numbers (String c1 ip) = true ->
  all_in numbers (String c2 fp) = true ->
  let s := sign_text neg ++ String c1 ip ++ String decimal_point (String c2 fp) in
  parse_number s 0 =
  match float s with
  | Some x => Ok (String.length s, PyFloat x)
  | None => Raise ValueError
  end.
Proof.
  intros A1 A2 s.
  assert (C1 : char_in c1 numbers = true).
  { cbn [all_in] in A1. now apply andb_true_iff in A1. }
  assert (C2 : char_in c2 numbers = true).
  { cbn [all_in] in A2. now apply andb_true_iff in A2. }
  destruct (literal_start neg c1 (ip ++ String decimal_point (String c2 fp)) C1)
    as (c0 & F0 & G0 & N0 & E0 & G1).
  change (sign_text neg ++ String c1 (ip ++ String decimal_point (String c2 fp)))
    with s in F0, G0, G1.
  set (a := String.length (sign_text neg)) in *.
  set (p1 := a + String.length (String c1 ip)).
  assert (F4 : skip_numbers s a = p1).
  { unfold s, a, p1. apply skip_numbers_app; [exact A1|]. intros c [= <-]. reflexivity. }
  assert (S' : s = (sign_text neg ++ String c1 ip ++ String decimal_point EmptyString)
                   ++ String c2 fp ++ EmptyString).
  { unfold s. rewrite app_nil_r, !app_assoc. reflexivity. }
  assert (Lp : String.length (sign_text neg ++ String c1 ip ++ String decimal_point EmptyString)
               = S p1).
  { unfold p1, a. rewrite !length_app. simpl. lia. }
  assert (Gp : String.get p1 s = Some decimal_point).
  { unfold s, p1, a. rewrite <- app_assoc, <- length_app.
    rewrite <- (Nat.add_0_r (String.length _)). now rewrite get_app_mid. }
  assert (G2 : String.get (S p1) s = Some c2).
  { rewrite S', <- Lp. rewrite <- (Nat.add_0_r (String.length _)).
    now rewrite get_app_mid. }
  assert (F5 : skip_numbers s (S p1) = String.length s).
  { rewrite S' at 1. rewrite <- Lp. rewrite skip_numbers_app; [|exact A2|intros c [=]].
    rewrite Lp. unfold p1, a, s. rewrite !length_app. cbn [String.length]. lia. }
  assert (L0 : (0 <? String.length s) = true).
  { apply Nat.ltb_lt. apply get_Some_lt in G0. exact G0. }
  assert (L1 : (p1 <? String.length s) = true).
  { apply Nat.ltb_lt. apply get_Some_lt in Gp. exact Gp. }
  unfold parse_number. rewrite F0, L0. cbn [negb].
  rewrite (index_get _ _ _ G0). cbn [bind]. rewrite N0. cbn [negb].
  rewrite E0. fold a. rewrite (index_get _ _ _ G1). cbn [bind]. rewrite C1. cbn [negb].
  rewrite F4, L1, (index_get _ _ _ Gp). cbn [bind]. rewrite Ascii.eqb_refl.
  rewrite (index_get _ _ _ G2). cbn [bind]. rewrite C2. cbn [negb].
  rewrite F5. unfold slice. now rewrite Nat.sub_0_r, substring_all.
Qed.

(** *** Integers *)

Lemma string_of_uint_digits (u : uint) :
  all_in numbers (NilEmpty.string_of_uint u) = true.
Proof. induction u; simpl; auto. Qed.

Lemma to_uint_nonnil (n : N) : N.to_uint n <> Nil.
Proof.
  destruct n as [|p]; simpl; [discriminate|apply DecimalPos.Unsigned.to_uint_nonnil].
Qed.

(** The digits of a natural number: at least one, all of them digits, and
    [NilZero.uint_of_string] reads the number back. *)
Lemma digits_of_spec (n : N) :
  (exists c t, digits_of n = String c t) /\
  all_in numbers (digits_of n) = true /\
  option_map N.of_uint (NilZero.uint_of_string (digits_of n)) = Some n.
Proof.
  unfold digits_of. pose proof (to_uint_nonnil n) as NN.
  split; [|split].
  - destruct (N.to_uint n); try contradiction; simpl; eauto.
  - destruct (N.to_uint n) eqn:E; try contradiction;
      rewrite <- E; unfold NilZero.string_of_uint; rewrite E; rewrite <- E;
      apply string_of_uint_digits.
  - rewrite NilZero.usu by exact NN. simpl.
    now rewrite DecimalN.Unsigned.of_to.
Qed.

Lemma int_digits_of (neg : bool) (n : N) :
  exists c t, all_in numbers (String c t) = true /\
    digits_of n = String c t /\
    int (sign_text neg ++ digits_of n)
    = if within_digit_limit (digits_of n) then Some (signed neg n) else None.
Proof.
  destruct (digits_of_spec n) as ((c & t & E) & A & R).
  exists c, t. rewrite <- E. split; [exact A|]. split; [reflexivity|].
  rewrite E in A. destruct (int_sign_digits neg c t A) as (u & U & I).
  rewrite E in R |- *. rewrite U in R. cbn [option_map] in R. injection R as R.
  unfold sign_text. now rewrite I, R.
Qed.

Lemma signed_abs (z : Z) : signed (z <? 0)%Z (Z.abs_N z) = z.
Proof. destruct z; reflexivity. Qed.

Lemma str_int_text (z : Z) (s : string) :
  str_int z = Some s ->
  exists c t, all_in numbers (String c t) = true /\
    s = sign_text (z <? 0)%Z ++ String c t /\
    int s = Some z.
Proof.
  unfold str_int. cbv zeta. intros H.
  destruct (int_digits_of (z <? 0)%Z (Z.abs_N z)) as (c & t & A & E & I).
  destruct (within_digit_limit (digits_of (Z.abs_N z))); [|discriminate].
  injection H as <-. exists c, t. split; [exact A|]. rewrite <- E.
  split; [reflexivity|]. rewrite signed_abs in I. exact I.
Qed.

(** An [int] that has a text formats to one that scans back, whole, to the
    same [int]. *)
Lemma parse_number_str_int (z : Z) (s : string) :
  str_int z = Some s -> parse_number s 0 = Ok (String.length s, PyInt z).
Proof.
  intros H. destruct (str_int_text z s H) as (c & t & A & E & I).
  pose proof (parse_number_int_text (z <? 0)%Z c t A) as P. cbv zeta in P.
  rewrite <- E in P. now rewrite I in P.
Qed.

Lemma uint_of_string_length (s : string) (u : uint) :
  NilEmpty.uint_of_string s = Some u -> nb_digits u = String.length s.
Proof.
  revert u; induction s as [|c s IH]; intros u H; simpl in H.
  - now inv H.
  - destruct (NilEmpty.uint_of_string s) as [v|]; [|discriminate].
    specialize (IH v eq_refl). cbn [String.length]. rewrite <- IH.
    destruct c as [[] [] [] [] [] [] [] []]; simpl in H; try discriminate;
      inv H; reflexivity.
Qed.

Lemma string_of_uint_length (u : uint) :
  String.length (NilEmpty.string_of_uint u) = nb_digits u.
Proof. induction u; simpl; auto. Qed.

(** Reading digits and writing the number back never gives more digits:
    the leading zeros go. *)
Lemma digits_of_shorter (c : ascii) (t : string) (u : uint) :
  NilZero.uint_of_string (String c t) = Some u ->
  String.length (digits_of (N.of_uint u)) <= String.length (String c t).
Proof.
  intros U. change (NilEmpty.uint_of_string (String c t) = Some u) in U.
  apply uint_of_string_length in U.
  assert (NN : u <> Nil) by (intros ->; discriminate).
  unfold digits_of. rewrite DecimalN.Unsigned.to_of.
  pose proof (DecimalFacts.nb_digits_unorm u NN) as Le.
  pose proof (DecimalFacts.unorm_nonnil u) as NU.
  assert (E : NilZero.string_of_uint (unorm u) = NilEmpty.string_of_uint (unorm u))
    by (destruct (unorm u); [contradiction|reflexivity..]).
  rewrite E, string_of_uint_length. cbn [String.length] in *. lia.
Qed.

(** Every integer [parse_number] returns is one [str] has a text for. *)
Lemma parse_number_int_has_text (d : string) (pos pos' : nat) (z : Z) :
  parse_number d pos = Ok (pos', PyInt z) -> exists s, str_int z = Some s.
Proof.
  intros H. pose proof (parse_number_scan d pos) as Sc. rewrite H in Sc.
  inversion Sc as [ | | | | c0 c1 r H0 C0 H1 C1 Hp Hr | | | c0 c1 c2 r H0 C0 H1 C1 Hp H2 C2 Hr].
  - destruct (digits_slice d _ c1 H1 C1) as (t & T & A).
    destruct (int_slice d pos c0 c1 H0 H1 C1) as (ds & u & Ds & _ & _ & _ & U & I).
    rewrite I in Hr. destruct (within_digit_limit ds) eqn:W; inv Hr.
    rewrite T in U, W. pose proof (digits_of_shorter c1 t u U) as Le.
    unfold str_int. cbv zeta.
    replace (Z.abs_N (signed (Ascii.eqb c0 minus_sign) (N.of_uint u))) with (N.of_uint u)
      by (unfold signed; destruct (Ascii.eqb c0 minus_sign);
          now rewrite ?Zabs2N.inj_opp, Zabs2N.id).
    assert (W' : within_digit_limit (digits_of (N.of_uint u)) = true).
    { unfold within_digit_limit in *. apply N.leb_le. apply N.leb_le in W. lia. }
    rewrite W'. eauto.
  - destruct (float _); inv Hr.
Qed.

(** *** Floats *)

Lemma span_digits_spec (s a b : string) :
  span_digits s = (a, b) -> s = a ++ b /\ all_in numbers a = true.
Proof.
  revert a b; induction s as [|c s IH]; intros a b H; cbn [span_digits] in H.
  - inv H. auto.
  - rewrite is_digit_numbers in H. destruct (char_in c numbers) eqn:C.
    + destruct (span_digits s) as [a' b'] eqn:E. injection H as <- <-.
      destruct (IH a' b' eq_refl) as [-> A]. cbn [all_in append]. now rewrite C, A.
    + inv H. auto.
Qed.

Lemma positional_shape (s : string) :
  positional s = true ->
  exists neg c1 ip c2 fp,
    s = sign_text neg ++ String c1 ip ++ String decimal_point (String c2 fp) /\
    all_in numbers (String c1 ip) = true /\ all_in numbers (String c2 fp) = true.
Proof.
  unfold positional. intros H.
  assert (X : exists neg s1, s = sign_text neg ++ s1 /\
            match span_digits s1 with
            | (String _ _, String c t) =>
                if Ascii.eqb c decimal_point then
                  match span_digits t with
                  | (String _ _, EmptyString) => true
                  | _ => false
                  end
                else false
            | _ => false
            end = true).
  { destruct s as [|c t]; [exists false, EmptyString; auto|].
    destruct (Ascii.eqb c minus_sign) eqn:E.
    - apply Ascii.eqb_eq in E. subst c. exists true, t. auto.
    - exists false, (String c t). auto. }
  clear H. destruct X as (neg & s1 & -> & H).
  destruct (span_digits s1) as [ip s2] eqn:E1.
  destruct ip as [|c1 ip]; [discriminate|]. destruct s2 as [|c t]; [discriminate|].
  destruct (Ascii.eqb c decimal_point) eqn:Ec; [|discriminate].
  apply Ascii.eqb_eq in Ec. subst c.
  destruct (span_digits t) as [fp s3] eqn:E2.
  destruct fp as [|c2 fp]; [discriminate|]. destruct s3; [|discriminate].
  apply span_digits_spec in E1, E2. destruct E1 as [-> A1]. destruct E2 as [-> A2].
  exists neg, c1, ip, c2, fp. rewrite app_nil_r. auto.
Qed.

Lemma spec_float_eqb_eq (x y : spec_float) : spec_float_eqb x y = true -> x = y.
Proof.
  destruct x as [s|s| |s m e], y as [s'|s'| |s' m' e']; simpl; try discriminate;
    try reflexivity.
  - intros H. apply Bool.eqb_prop in H. congruence.
  - intros H. apply Bool.eqb_prop in H. congruence.
  - rewrite !andb_true_iff. intros [[H1 H2] H3].
    apply Bool.eqb_prop in H1. apply Pos.eqb_eq in H2. apply Z.eqb_eq in H3. congruence.
Qed.

Lemma round_trips_float (x : spec_float) (s : string) :
  round_trips x s = true -> float s = Some x.
Proof.
  unfold round_trips. destruct (float s) as [y|]; [|discriminate].
  intros H. apply spec_float_eqb_eq in H. congruence.
Qed.

(** The shortest text of a float is, by its choice, one that [float]
    reads back as that float. *)
Lemma shortest_round_trips (tries : nat) (n : Z) (x : spec_float) (neg : bool)
    (num den : Z) (t : string) :
  shortest tries n x neg num den = Some t -> float t = Some x.
Proof.
  revert n; induction tries as [|tries IH]; intros n H; cbn [shortest] in H;
    [discriminate|].
  destruct (candidates neg num den n) as [[lo hi] nearer].
  destruct (round_trips x lo) eqn:Rl, (round_trips x hi) eqn:Rh.
  - inv H. destruct nearer; now apply round_trips_float.
  - inv H. now apply round_trips_float.
  - inv H. now apply round_trips_float.
  - eapply IH; eauto.
Qed.

Lemma shortest_text_round_trips (x : spec_float) (t : string) :
  shortest_text x = Some t -> float t = Some x.
Proof.
  destruct x as [s|s| |s m e]; cbn [shortest_text]; try discriminate.
  destruct (ratio_of m e) as [num den]. apply shortest_round_trips.
Qed.

(** A positional text scans back, whole, to the float it denotes. *)
Lemma parse_number_positional (s : string) (x : spec_float) :
  positional s = true -> float s = Some x ->
  parse_number s 0 = Ok (String.length s, PyFloat x).
Proof.
  intros P F. destruct (positional_shape s P) as (neg & c1 & ip & c2 & fp & E & A1 & A2).
  pose proof (parse_number_float_text neg c1 c2 ip fp A1 A2) as H. cbv zeta in H.
  rewrite <- E, F in H. exact H.
Qed.

(** C9, as stated, fails.  [parse_number] returns the float [1e-05] for
    ["0.00001"]; its text is ["1e-05"], and scanning that text stops before
    the [e] and yields the integer 1. *)
Lemma C9_counterexample :
  let v := PyFloat (S754_finite false 5902958103587057 (-69)) in
  parse_number "0.00001" 0 = Ok (7, v) /\
  str v = Some "1e-05" /\
  parse_number "1e-05" 0 = Ok (1, PyInt 1) /\
  PyInt 1 <> v.
Proof. repeat split; try (vm_compute; reflexivity). discriminate. Qed.

(** C9, amended.  Every value [parse_number] returns has a standard text
    (the integers it returns stay within the digit limit of [str]).  A
    value that has a text [s] and is an integer, or a fractional value
    whose text is in positional notation, scans back from [s]: the scan
    consumes the whole of [s] and yields the same value of the same kind.
    The float nearest to 2^50 + 1/4 is one: its text is the shorter
    ["1125899906842624.2"], which scans back to it. *)
Theorem C9_round_trip :
  (forall (d : string) (pos pos' : nat) (v : number),
     parse_number d pos = Ok (pos', v) -> exists s, str v = Some s) /\
  (forall (v : number) (s : string),
     str v = Some s -> has_positional_text v = true ->
     parse_number s 0 = Ok (String.length s, v)) /\
  (let v := PyFloat (S754_finite false 4503599627370497 (-2)) in
   parse_number "1125899906842624.25" 0 = Ok (19, v) /\
   str v = Some "1125899906842624.2" /\
   parse_number "1125899906842624.2" 0 = Ok (18, v)).
Proof.
  split; [|split].
  - intros d pos pos' [z|x] H; [|cbn [str]; eauto].
    apply (parse_number_int_has_text d pos pos' z H).
  - intros [z|x] s T H.
    + now apply parse_number_str_int.
    + cbn [str] in T. injection T as <-.
      destruct x as [sg|sg| |sg m e]; try discriminate.
      * destruct sg; reflexivity.
      * cbn [has_positional_text] in H. cbn [repr_float].
        destruct (shortest_text (S754_finite sg m e)) as [t|] eqn:T; [|discriminate].
        apply parse_number_positional; [exact H|].
        now apply shortest_text_round_trips.
  - repeat split; vm_compute; reflexivity.
Qed.

Lemma C9_round_trip_witness :
  parse_number "-47.92" 0
  = Ok (6, PyFloat (S754_finite true 6744140441987318 (-47))).
Proof.
  apply (proj1 (proj2 C9_round_trip)
           (PyFloat (S754_finite true 6744140441987318 (-47))) "-47.92");
    vm_compute; reflexivity.
Defined.

(** * Further properties of the scanner *)

(** ** Digit runs *)

(** X1. [skip_numbers] returns the end of the longest run of digits that
    starts at the cursor: it never moves back, every character it steps
    over is a digit, and it stops at the end of the text or on a character
    that is no digit.  A cursor at or past the end comes back unchanged. *)
Theorem skip_numbers_maximal (d : string) (pos : nat) :
  pos <= skip_numbers d pos /\
  (pos <= String.length d -> skip_numbers d pos <= String.length d) /\
  (String.length d <= pos -> skip_numbers d pos = pos) /\
  (forall i, pos <= i < skip_numbers d pos ->
             exists c, String.get i d = Some c /\ char_in c numbers = true) /\
  (forall c, String.get (skip_numbers d pos) d = Some c -> char_in c numbers = false).
Proof.
  split; [apply skip_numbers_ge|]. split; [apply skip_numbers_le|].
  split; [|split].
  - intros L. unfold skip_numbers. replace (String.length d - pos) with 0 by lia.
    reflexivity.
  - intros i I. exact (skip_while_inside numbers _ d pos i I).
  - intros c G. exact (skip_while_stop numbers d pos c G).
Qed.

Lemma skip_numbers_maximal_witness :
  exists c, String.get 3 "M 1234,5" = Some c /\ char_in c numbers = true.
Proof.
  apply (proj1 (proj2 (proj2 (proj2 (skip_numbers_maximal "M 1234,5" 2)))) 3).
  vm_compute. split; repeat constructor.
Defined.

(** ** Numbers *)

(** X2. The scan of a number is maximal: the character at the cursor
    [parse_number] returns, when there is one, is no digit, and after an
    integer it is no decimal point either. *)
Theorem parse_number_maximal (d : string) (pos pos' : nat) (v : number) (c : ascii) :
  parse_number d pos = Ok (pos', v) ->
  String.get pos' d = Some c ->
  char_in c numbers = false /\
  (forall z, v = PyInt z -> c <> decimal_point).
Proof.
  intros H G. pose proof (parse_number_scan d pos) as Sc. rewrite H in Sc.
  inversion Sc as [ | | | | c0 c1 r H0 C0 H1 C1 Hp Hr | | | c0 c1 c2 r H0 C0 H1 C1 Hp H2 C2 Hr].
  - destruct (int _); inv Hr. split.
    + exact (skip_while_stop numbers d _ c G).
    + intros z' _ E. subst c. contradiction.
  - destruct (float _); inv Hr. split.
    + exact (skip_while_stop numbers d _ c G).
    + intros z' E. discriminate E.
Qed.

Lemma parse_number_maximal_witness :
  char_in "e" numbers = false /\ (forall z, PyInt 12 = PyInt z -> "e"%char <> decimal_point).
Proof.
  apply (parse_number_maximal "12e5" 0 2 (PyInt 12) "e"); reflexivity.
Defined.

(** X3. A number may not start with its decimal point: when the first
    character after the separators is a point, [parse_number] fails and
    names that point and its offset. *)
Theorem parse_number_leading_point (d : string) (pos : nat) :
  String.get (skip_seps d pos) d = Some decimal_point ->
  parse_number d pos = Raise (UnexpectedChar decimal_point (skip_seps d pos) d).
Proof.
  intros G.
  assert (A : after_sign d (skip_seps d pos) = skip_seps d pos).
  { unfold after_sign. now rewrite G. }
  pose proof (parse_number_no_digit d pos decimal_point decimal_point G eq_refl) as H.
  rewrite A in H. apply H; [exact G|reflexivity].
Qed.

Lemma parse_number_leading_point_witness :
  parse_number "M .5" 1 = Raise (UnexpectedChar decimal_point (skip_seps "M .5" 1) "M .5").
Proof. apply parse_number_leading_point. reflexivity. Defined.

(** X4. [parse_number] fails inside [int] or [float] in one case only,
    with the [ValueError] of [int]: the text it cuts out is an integer
    literal, digits with no decimal point after them, of more digits than
    the interpreter converts.  A literal with a point never fails there,
    and no text of 4300 characters or fewer does. *)
Theorem parse_number_literal_ok (d : string) (pos : nat) :
  (parse_number d pos = Raise ValueError <->
   (exists c1, String.get (after_sign d (skip_seps d pos)) d = Some c1 /\
               char_in c1 numbers = true) /\
   String.get (skip_numbers d (after_sign d (skip_seps d pos))) d <> Some decimal_point /\
   (int_max_str_digits
    < N.of_nat (skip_numbers d (after_sign d (skip_seps d pos))
                - after_sign d (skip_seps d pos)))%N) /\
  (String.length d <= 4300 -> parse_number d pos <> Raise ValueError).
Proof.
  split; [apply parse_number_ValueError|].
  intros L H. apply parse_number_ValueError in H.
  destruct H as ((c1 & G1 & _) & _ & B). apply get_Some_lt in G1.
  pose proof (skip_numbers_le d (after_sign d (skip_seps d pos)) ltac:(lia)) as Le.
  unfold int_max_str_digits in B. lia.
Qed.

Lemma parse_number_literal_ok_witness :
  parse_number (zeros 4301) 0 = Raise ValueError /\
  parse_number "1 2" 0 <> Raise ValueError.
Proof.
  split.
  - apply (proj2 (proj1 (parse_number_literal_ok (zeros 4301) 0))).
    split; [exists "0"%char; vm_compute; split; reflexivity|].
    split; [vm_compute; discriminate|vm_compute; reflexivity].
  - apply (proj2 (parse_number_literal_ok "1 2" 0)). simpl. lia.
Defined.

(** ** Coordinates *)

Lemma parse_cooridate_split (d : string) (pos pos' : nat) (x y : number) :
  parse_cooridate d pos = Ok (pos', (x, y)) <->
  exists p1, parse_number d pos = Ok (p1, x) /\ parse_number d p1 = Ok (pos', y).
Proof.
  unfold parse_cooridate. split.
  - intros H. bind_ok H. destruct a as [p1 x']. exists p1.
    destruct (negb _); [discriminate|]. bind_ok H. destruct a as [p2 y'].
    rewrite !parse_number_skip in Hstep0. inv H. auto.
  - intros (p1 & H1 & H2). rewrite H1. cbn [bind].
    assert (L : skip_seps d p1 < String.length d).
    { destruct (Nat.lt_ge_cases (skip_seps d p1) (String.length d)) as [L|L]; [exact L|].
      rewrite (parse_number_exhausted d p1 L) in H2. discriminate. }
    apply Nat.ltb_lt in L. rewrite L. cbn [negb].
    now rewrite !parse_number_skip, H2.
Qed.

(** X5. A coordinate pair is two numbers scanned one after the other:
    [parse_cooridate] succeeds exactly when [parse_number] succeeds at the
    cursor and again at the cursor it returns, and it returns the second
    cursor and the two values. *)
Theorem parse_cooridate_two_numbers (d : string) (pos pos' : nat) (x y : number) :
  parse_cooridate d pos = Ok (pos', (x, y)) <->
  exists p1, parse_number d pos = Ok (p1, x) /\ parse_number d p1 = Ok (pos', y).
Proof. apply parse_cooridate_split. Qed.

Lemma parse_cooridate_two_numbers_witness :
  parse_cooridate "M1,-2" 1 = Ok (5, (PyInt 1, PyInt (-2))).
Proof.
  apply (proj2 (parse_cooridate_two_numbers "M1,-2" 1 5 (PyInt 1) (PyInt (-2)))).
  exists 2. split; reflexivity.
Defined.

(** ** Commands *)

(** X6. [parse_command] keeps the letter it is given, case included, and
    on success returns a cursor strictly beyond the one it was given and
    not beyond the end of the text. *)
Theorem parse_command_letter_and_cursor
    (c : ascii) (d : string) (pos pos' : nat) (pc : PathCommand) :
  parse_command c d pos = Ok (pos', pc) ->
  command pc = c /\ char_in c commands = true /\ pos < pos' <= String.length d.
Proof.
  intros H. destruct (parse_command_Ok c d pos pos' pc H) as (E & W & P).
  split; [exact E|]. split; [|exact P].
  unfold well_formed in W. rewrite E in W. eapply arity_supported; eauto.
Qed.

Lemma parse_command_letter_and_cursor_witness :
  command (mkPathCommand "s" [PyInt 1; PyInt 2; PyInt 3; PyInt 4]) = "s"%char /\
  char_in "s" commands = true /\ 1 < 8 <= String.length "s1 2 3 4".
Proof.
  apply (parse_command_letter_and_cursor "s" "s1 2 3 4" 1 8). reflexivity.
Defined.

(** ** Termination of the driver loop *)

Lemma parse_loop_fuel_irrelevant (f1 f2 : nat) (d : string) (pos : nat)
    (last : option ascii) (acc : list PathCommand) :
  String.length d - pos <= f1 -> String.length d - pos <= f2 ->
  parse_loop f1 d pos last acc = parse_loop f2 d pos last acc.
Proof.
  revert f2 pos last acc; induction f1 as [|f1 IH]; intros f2 pos last acc F1 F2.
  - now rewrite !parse_loop_done by lia.
  - destruct (turn_cases d pos last) as [L|c G C|c l G C N ->|c G C N].
    + now rewrite !parse_loop_done by lia.
    + pose proof (get_Some_lt _ _ _ G). destruct f2 as [|f2]; [lia|].
      rewrite !(parse_loop_letter _ _ _ _ _ _ G C).
      destruct (parse_command c d (S pos)) as [[p' pc]| |] eqn:E; cbn [bind]; auto.
      apply parse_command_Ok in E. pose proof (skip_seps_ge d p').
      apply IH; lia.
    + pose proof (get_Some_lt _ _ _ G). destruct f2 as [|f2]; [lia|].
      rewrite !(parse_loop_elided _ _ _ _ _ _ G C N).
      destruct (parse_command l d pos) as [[p' pc]| |] eqn:E; cbn [bind]; auto.
      apply parse_command_Ok in E. pose proof (skip_seps_ge d p').
      apply IH; lia.
    + pose proof (get_Some_lt _ _ _ G). destruct f2 as [|f2]; [lia|].
      now rewrite !(parse_loop_other _ _ _ _ _ _ G C N).
Qed.

(** X7. The driver loop ends within as many turns as characters are left:
    with at least that many turns allowed it never runs out of them, and
    allowing more does not change what it returns or raises. *)
Theorem parse_loop_terminates (fuel : nat) (d : string) (pos : nat)
    (last : option ascii) (acc : list PathCommand) :
  String.length d - pos <= fuel ->
  parse_loop fuel d pos last acc <> OutOfFuel /\
  parse_loop fuel d pos last acc = parse_loop (String.length d - pos) d pos last acc.
Proof.
  intros F. split; [now apply parse_loop_fuel|].
  apply parse_loop_fuel_irrelevant; lia.
Qed.

Lemma parse_loop_terminates_witness :
  parse_loop 50 "M1 2 3 4" 0 None [] <> OutOfFuel /\
  parse_loop 50 "M1 2 3 4" 0 None []
  = parse_loop (String.length "M1 2 3 4" - 0) "M1 2 3 4" 0 None [].
Proof. apply parse_loop_terminates. vm_compute. repeat constructor. Defined.

(** ** What a failure reports *)

Lemma last_char (d : string) (p : nat) (c : ascii) :
  String.get p d = Some c -> String.get (S p) d = None ->
  String.get (String.length d - 1) d = Some c.
Proof.
  intros G N. apply get_Some_lt in G as L. apply get_None_ge in N.
  now replace (String.length d - 1) with p by lia.
Qed.

Lemma parse_number_diagnostic (d : string) (pos : nat) (e : exn) :
  pos <= String.length d ->
  parse_number d pos = Raise e -> diagnostic_ok d e.
Proof.
  intros B H. pose proof (parse_number_scan d pos) as Sc. rewrite H in Sc.
  pose proof (skip_seps_le d pos B) as SL.
  inversion Sc as [L|c0 H0 C0|c0 H0 C0 H1|c0 c1 H0 C0 H1 C1
                   |c0 c1 r H0 C0 H1 C1 Hp Hr|c0 c1 H0 C0 H1 C1 Hp H2
                   |c0 c1 c2 H0 C0 H1 C1 Hp H2 C2|c0 c1 c2 r H0 C0 H1 C1 Hp H2 C2 Hr];
    subst; cbn [diagnostic_ok].
  - split; [reflexivity|lia].
  - auto.
  - unfold after_sign in H1. rewrite H0 in H1.
    destruct (Ascii.eqb c0 minus_sign) eqn:E; [|congruence].
    apply Ascii.eqb_eq in E. subst c0. exists minus_sign.
    split; [eapply last_char; eauto|split; reflexivity].
  - auto.
  - destruct (int _); inv Hr. cbn [diagnostic_ok].
    apply parse_number_ValueError in H. destruct H as (_ & _ & Lim).
    exists (after_sign d (skip_seps d pos)),
           (skip_numbers d (after_sign d (skip_seps d pos))).
    split; [exact Lim|]. intros i Hi.
    destruct (skip_while_inside numbers _ d _ i Hi) as (c & G & C). eauto.
  - exists decimal_point. split; [eapply last_char; eauto|split; reflexivity].
  - auto.
  - destruct (float_slice d pos c0 c1 c2 H0 H1 C1 Hp H2 C2) as (ip & fp & u & _ & _ & _ & _ & F).
    rewrite F in Hr. discriminate.
Qed.

Lemma parse_cooridate_diagnostic (d : string) (pos : nat) (e : exn) :
  pos <= String.length d ->
  parse_cooridate d pos = Raise e -> diagnostic_ok d e.
Proof.
  unfold parse_cooridate. intros B H.
  apply bind_Raise_inv in H. destruct H as [H|([p1 x] & H1 & H)].
  - now apply parse_number_diagnostic in H.
  - apply parse_number_progress in H1.
    pose proof (skip_seps_le d p1 ltac:(lia)) as S1.
    pose proof (skip_seps_le d (skip_seps d p1) S1) as S2.
    destruct (skip_seps d p1 <? String.length d) eqn:L; cbn [negb] in H.
    + apply bind_Raise_inv in H. destruct H as [H|([p2 y] & _ & H)].
      * now apply parse_number_diagnostic in H.
      * discriminate.
    + apply Nat.ltb_ge in L. inv H. cbn [diagnostic_ok]. split; [reflexivity|lia].
Qed.

Lemma parse_command_diagnostic (c : ascii) (d : string) (pos : nat) (e : exn) :
  char_in c commands = true -> pos <= String.length d ->
  parse_command c d pos = Raise e -> diagnostic_ok d e.
Proof.
  rewrite commands_dispatch. unfold parse_command. intros C B H.
  destruct (char_in c moveto_commands).
  { apply bind_Raise_inv in H. destruct H as [H|([p1 [x y]] & H1 & H)];
      [now apply parse_cooridate_diagnostic in H|discriminate]. }
  destruct (char_in c curveto_commands).
  { apply bind_Raise_inv in H. destruct H as [H|([p1 [x1 y1]] & H1 & H)];
      [now apply parse_cooridate_diagnostic in H|].
    apply parse_cooridate_progress in H1.
    apply bind_Raise_inv in H. destruct H as [H|([p2 [x2 y2]] & H2 & H)];
      [apply parse_cooridate_diagnostic in H; [exact H|lia]|].
    apply parse_cooridate_progress in H2.
    apply bind_Raise_inv in H. destruct H as [H|([p3 [x3 y3]] & H3 & H)];
      [apply parse_cooridate_diagnostic in H; [exact H|lia]|discriminate]. }
  destruct (char_in c smooth_curveto_commands); [|discriminate].
  apply bind_Raise_inv in H. destruct H as [H|([p1 [x1 y1]] & H1 & H)];
    [now apply parse_cooridate_diagnostic in H|].
  apply parse_cooridate_progress in H1.
  apply bind_Raise_inv in H. destruct H as [H|([p2 [x2 y2]] & H2 & H)];
    [apply parse_cooridate_diagnostic in H; [exact H|lia]|discriminate].
Qed.

Lemma parse_loop_diagnostic (fuel : nat) (d : string) (pos : nat)
    (last : option ascii) (acc : list PathCommand) (e : exn) :
  supported last ->
  (forall c, String.get pos d = Some c -> char_in c sep_chars = false) ->
  parse_loop fuel d pos last acc = Raise e -> diagnostic_ok d e.
Proof.
  revert pos last acc; induction fuel as [|fuel IH]; intros pos last acc Sp NS H.
  - cbn [parse_loop] in H. destruct (pos <? String.length d); discriminate.
  - destruct (turn_cases d pos last) as [L|c G C|c l G C N ->|c G C N].
    + rewrite parse_loop_done in H by lia. discriminate.
    + pose proof (get_Some_lt _ _ _ G) as L.
      rewrite (parse_loop_letter _ _ _ _ _ _ G C) in H.
      apply bind_Raise_inv in H. destruct H as [H|([p' pc] & _ & H)].
      * apply parse_command_diagnostic in H; auto.
      * apply IH in H; auto. intros c'. apply (skip_while_stop sep_chars d p' c').
    + pose proof (get_Some_lt _ _ _ G) as L.
      rewrite (parse_loop_elided _ _ _ _ _ _ G C N) in H.
      apply bind_Raise_inv in H. destruct H as [H|([p' pc] & _ & H)].
      * apply parse_command_diagnostic in H; auto. lia.
      * apply IH in H; auto. intros c'. apply (skip_while_stop sep_chars d p' c').
    + rewrite (parse_loop_other _ _ _ _ _ _ G C N) in H.
      unfold raise_unexpected_char, index in H.
      destruct (String.get (S pos) d) as [c'|] eqn:G'; cbn [bind] in H; inv H;
        cbn [diagnostic_ok]; [auto|].
      exists c. split; [eapply last_char; eauto|]. split; [exact C|now apply NS].
Qed.

(** X8. Whatever [parse_d_property] raises is true of its input: an
    unexpected-character diagnostic quotes the input and names the
    character that stands at the offset it gives; an unexpected-end
    diagnostic quotes the input and gives its length as the offset; the
    empty-input failure only happens on the empty text; an [IndexError]
    only happens when the last character of the input is neither a
    separator nor a command letter; a [ValueError] only happens when the
    input holds a run of more than 4300 digits; and the unsupported-command
    failure never happens. *)
Theorem parse_d_property_diagnostic (d : string) (e : exn) :
  parse_d_property d = Raise e -> diagnostic_ok d e.
Proof.
  unfold parse_d_property. destruct (String.length d =? 0) eqn:Z; intros H.
  - inv H. now apply Nat.eqb_eq, length_zero in Z.
  - apply parse_loop_diagnostic in H; [exact H|exact I|].
    intros c. rewrite skip_seps_idem. apply (skip_while_stop sep_chars d 0 c).
Qed.

Lemma parse_d_property_diagnostic_witness :
  diagnostic_ok "M1 2c3,x" (UnexpectedChar "x" 7 "M1 2c3,x") /\
  diagnostic_ok ("M1 " ++ zeros 4301) ValueError.
Proof.
  split; apply parse_d_property_diagnostic; vm_compute; reflexivity.
Defined.

(** ** The shape of the result *)

(** The loop only ever appends: what it returns starts with what it holds,
    and adds nothing exactly when no character is left to read. *)
Lemma parse_loop_extends (fuel : nat) (d : string) (pos : nat)
    (last : option ascii) (acc l : list PathCommand) :
  parse_loop fuel d pos last acc = Ok l ->
  exists l', l = (acc ++ l')%list /\ (l' = [] -> String.length d <= pos).
Proof.
  revert pos last acc; induction fuel as [|fuel IH]; intros pos last acc H.
  - cbn [parse_loop] in H. destruct (pos <? String.length d) eqn:L; [discriminate|].
    inv H. exists []. rewrite List.app_nil_r. apply Nat.ltb_ge in L. auto.
  - destruct (turn_cases d pos last) as [L|c G C|c l0 G C N ->|c G C N].
    + rewrite parse_loop_done in H by lia. inv H. exists []. rewrite List.app_nil_r. auto.
    + rewrite (parse_loop_letter _ _ _ _ _ _ G C) in H. bind_ok H.
      destruct a as [p' pc]. apply IH in H. destruct H as (l' & -> & _).
      exists (pc :: l'). rewrite <- List.app_assoc. split; [reflexivity|discriminate].
    + rewrite (parse_loop_elided _ _ _ _ _ _ G C N) in H. bind_ok H.
      destruct a as [p' pc]. apply IH in H. destruct H as (l' & -> & _).
      exists (pc :: l'). rewrite <- List.app_assoc. split; [reflexivity|discriminate].
    + rewrite (parse_loop_other _ _ _ _ _ _ G C N) in H.
      unfold raise_unexpected_char, index in H.
      destruct (String.get (S pos) d); discriminate.
Qed.

Lemma parse_seps_only (d : string) :
  d <> EmptyString -> all_in sep_chars d = true -> parse_d_property d = Ok [].
Proof.
  intros N A. unfold parse_d_property.
  destruct (String.length d =? 0) eqn:Z.
  - apply Nat.eqb_eq, length_zero in Z. contradiction.
  - rewrite skip_seps_idem, (skip_seps_all d A). apply parse_loop_done. lia.
Qed.

(** X9. [parse_d_property] returns the empty sequence on the non-empty
    texts made of separators only, and on no other text. *)
Theorem parse_d_property_nil_iff (d : string) :
  parse_d_property d = Ok [] <-> d <> EmptyString /\ all_in sep_chars d = true.
Proof.
  split; [|intros [N A]; now apply parse_seps_only].
  unfold parse_d_property. destruct (String.length d =? 0) eqn:Z; [discriminate|].
  intros H. apply Nat.eqb_neq in Z. rewrite length_zero in Z. split; [exact Z|].
  rewrite skip_seps_idem in H. apply parse_loop_extends in H.
  destruct H as (l' & E & L). destruct l'; [|discriminate E]. specialize (L eq_refl).
  apply all_in_get. intros i c G. pose proof (get_Some_lt _ _ _ G) as Li.
  destruct (skip_while_inside sep_chars (String.length d - 0) d 0 i) as (c' & G' & C').
  - fold (skip_seps d 0). lia.
  - congruence.
Qed.

Lemma parse_d_property_nil_iff_witness :
  String " " (String "010" ",") <> EmptyString /\
  all_in sep_chars (String " " (String "010" ",")) = true.
Proof.
  apply (proj1 (parse_d_property_nil_iff (String " " (String "010" ",")))). reflexivity.
Defined.

(** X10. A successful parse that returns records starts on a command
    letter: the first character of the text after the leading separators
    is a supported letter, and it is the letter of the first record. *)
Theorem parse_d_property_first_letter
    (d : string) (pc : PathCommand) (rest : list PathCommand) :
  parse_d_property d = Ok (pc :: rest) ->
  String.get (skip_seps d 0) d = Some (command pc) /\
  char_in (command pc) commands = true.
Proof.
  unfold parse_d_property. destruct (String.length d) as [|n] eqn:Len; [discriminate|].
  cbn [Nat.eqb]. rewrite skip_seps_idem. intros H.
  destruct (turn_cases d (skip_seps d 0) None) as [L|c G C|c l G C N E|c G C N].
  - rewrite parse_loop_done in H by lia. discriminate.
  - rewrite (parse_loop_letter _ _ _ _ _ _ G C) in H. bind_ok H.
    destruct a as [p' pc']. apply parse_command_Ok in Hstep. destruct Hstep as (E & _).
    apply parse_loop_extends in H. destruct H as (l' & E' & _).
    simpl in E'. injection E' as -> _. rewrite E. auto.
  - discriminate.
  - rewrite (parse_loop_other _ _ _ _ _ _ G C N) in H.
    unfold raise_unexpected_char, index in H.
    destruct (String.get (S (skip_seps d 0)) d); discriminate.
Qed.

Lemma parse_d_property_first_letter_witness :
  String.get (skip_seps " ,m1 2 3 4" 0) " ,m1 2 3 4"
  = Some (command (mkPathCommand "m" [PyInt 1; PyInt 2])) /\
  char_in (command (mkPathCommand "m" [PyInt 1; PyInt 2])) commands = true.
Proof.
  apply (parse_d_property_first_letter " ,m1 2 3 4" _ [mkPathCommand "m" [PyInt 3; PyInt 4]]).
  reflexivity.
Defined.

Lemma parse_loop_letters (fuel : nat) (d : string) (pos : nat)
    (last : option ascii) (acc l : list PathCommand) :
  supported last ->
  (forall x, last = Some x -> char_in x d = true) ->
  Forall (fun pc => char_in (command pc) commands = true /\
                    char_in (command pc) d = true) acc ->
  parse_loop fuel d pos last acc = Ok l ->
  Forall (fun pc => char_in (command pc) commands = true /\
                    char_in (command pc) d = true) l.
Proof.
  revert pos last acc; induction fuel as [|fuel IH]; intros pos last acc Sp In W H.
  - cbn [parse_loop] in H. destruct (pos <? String.length d); [discriminate|]. now inv H.
  - destruct (turn_cases d pos last) as [L|c G C|c l0 G C N ->|c G C N].
    + rewrite parse_loop_done in H by lia. now inv H.
    + rewrite (parse_loop_letter _ _ _ _ _ _ G C) in H. bind_ok H.
      destruct a as [p' pc]. apply parse_command_Ok in Hstep. destruct Hstep as (E & _).
      assert (Cd : char_in c d = true) by (apply char_in_get; eauto).
      eapply IH; [| | |exact H]; cbn [supported]; auto.
      * intros x [= <-]. exact Cd.
      * apply Forall_app. split; [exact W|]. constructor; [|constructor].
        rewrite E. auto.
    + rewrite (parse_loop_elided _ _ _ _ _ _ G C N) in H. bind_ok H.
      destruct a as [p' pc]. apply parse_command_Ok in Hstep. destruct Hstep as (E & _).
      eapply IH; [| | |exact H]; auto.
      apply Forall_app. split; [exact W|]. constructor; [|constructor].
      rewrite E. split; [exact Sp|]. now apply In.
    + rewrite (parse_loop_other _ _ _ _ _ _ G C N) in H.
      unfold raise_unexpected_char, index in H.
      destruct (String.get (S pos) d); discriminate.
Qed.

(** X11. The parser invents no command: the letter of every record it
    returns is a supported letter that occurs in the text, so a record
    whose letter was elided carries a letter written earlier. *)
Theorem parse_d_property_letters (d : string) (cmds : list PathCommand) :
  parse_d_property d = Ok cmds ->
  Forall (fun pc => char_in (command pc) commands = true /\
                    char_in (command pc) d = true) cmds.
Proof.
  unfold parse_d_property. destruct (String.length d =? 0); [discriminate|].
  apply parse_loop_letters; cbn [supported]; auto. discriminate.
Qed.

Lemma parse_d_property_letters_witness :
  Forall (fun pc => char_in (command pc) commands = true /\
                    char_in (command pc) "c1 2 3 4 5 6" = true)
         [mkPathCommand "c" [PyInt 1; PyInt 2; PyInt 3; PyInt 4; PyInt 5; PyInt 6]].
Proof. apply parse_d_property_letters. reflexivity. Defined.

(** ** Parsing a text put after another *)

Section Append.

Variables d1 d2 : string.

#[local] Abbreviation d := (d1 ++ d2).
#[local] Abbreviation n1 := (String.length d1).

Lemma get_left (i : nat) : i < n1 -> String.get i d = String.get i d1.
Proof. apply get_app_l. Qed.

Lemma get_right (i : nat) : String.get (n1 + i) d = String.get i d2.
Proof. apply get_app_r. Qed.

Lemma length_d : String.length d = n1 + String.length d2.
Proof. apply length_app. Qed.

Lemma substring_left (a n : nat) :
  a + n <= n1 -> substring a n d = substring a n d1.
Proof.
  revert a n; induction d1 as [|c s IH]; intros a n H.
  - simpl in H. assert (a = 0) by lia. assert (n = 0) by lia. subst.
    simpl. now rewrite substring_zero.
  - destruct a as [|a]; simpl in *.
    + destruct n as [|n]; [reflexivity|]. now rewrite (IH 0 n) by lia.
    + apply IH. lia.
Qed.

Lemma substring_right (a n : nat) : substring (n1 + a) n d = substring a n d2.
Proof. induction d1; simpl; auto. Qed.

Lemma slice_left (a b : nat) : a <= b <= n1 -> slice d a b = slice d1 a b.
Proof. intros H. unfold slice. apply substring_left. lia. Qed.

Lemma slice_right (a b : nat) : slice d (n1 + a) (n1 + b) = slice d2 a b.
Proof.
  unfold slice. replace (n1 + b - (n1 + a)) with (b - a) by lia. apply substring_right.
Qed.

(** A skipping loop over the first text, then over the second when it
    reaches the seam. *)
Lemma skip_while_left (cls : string) (pos : nat) :
  pos <= n1 ->
  skip_while cls (String.length d - pos) d pos =
  if skip_while cls (n1 - pos) d1 pos <? n1
  then skip_while cls (n1 - pos) d1 pos
  else skip_while cls (String.length d - n1) d n1.
Proof.
  remember (n1 - pos) as k eqn:K. revert pos K; induction k as [|k IH]; intros pos K B.
  - assert (pos = n1) by lia. subst pos. cbn [skip_while]. now rewrite Nat.ltb_irrefl.
  - assert (L : pos < n1) by lia. destruct (get_lt_Some d1 pos L) as [c G].
    assert (Gd : String.get pos d = Some c) by now rewrite get_left.
    rewrite length_d. replace (n1 + String.length d2 - pos)
      with (S (n1 + String.length d2 - S pos)) by lia.
    cbn [skip_while]. rewrite G, Gd. destruct (char_in c cls).
    + rewrite <- length_d. apply IH; lia.
    + apply Nat.ltb_lt in L. now rewrite L.
Qed.

Lemma skip_while_right (cls : string) (left pos : nat) :
  skip_while cls left d (n1 + pos) = n1 + skip_while cls left d2 pos.
Proof.
  revert pos; induction left as [|left IH]; intros pos; cbn [skip_while]; [reflexivity|].
  rewrite get_right. destruct (String.get pos d2) as [c|]; [|reflexivity].
  destruct (char_in c cls); [|reflexivity].
  replace (S (n1 + pos)) with (n1 + S pos) by lia. apply IH.
Qed.

Lemma skip_seps_right (pos : nat) : skip_seps d (n1 + pos) = n1 + skip_seps d2 pos.
Proof.
  unfold skip_seps. rewrite length_d.
  replace (n1 + String.length d2 - (n1 + pos)) with (String.length d2 - pos) by lia.
  apply skip_while_right.
Qed.

Lemma skip_numbers_right (pos : nat) :
  skip_numbers d (n1 + pos) = n1 + skip_numbers d2 pos.
Proof.
  unfold skip_numbers. rewrite length_d.
  replace (n1 + String.length d2 - (n1 + pos)) with (String.length d2 - pos) by lia.
  apply skip_while_right.
Qed.

Lemma skip_seps_left (pos : nat) :
  skip_seps d1 pos < n1 -> skip_seps d pos = skip_seps d1 pos.
Proof.
  intros L. pose proof (skip_seps_ge d1 pos). unfold skip_seps in *.
  rewrite skip_while_left by lia. apply Nat.ltb_lt in L. now rewrite L.
Qed.

Lemma skip_seps_seam (pos : nat) :
  pos <= n1 -> n1 <= skip_seps d1 pos -> skip_seps d pos = skip_seps d n1.
Proof.
  intros B L. unfold skip_seps in *. rewrite skip_while_left by lia.
  apply Nat.ltb_ge in L. now rewrite L.
Qed.

(** The second text does not start with a digit or a decimal point. *)
Hypothesis seam :
  forall c, String.get 0 d2 = Some c -> char_in c numbers = false /\ c <> decimal_point.

Lemma skip_numbers_left (pos : nat) :
  pos <= n1 -> skip_numbers d pos = skip_numbers d1 pos.
Proof.
  intros B. pose proof (skip_numbers_le d1 pos B) as Le.
  unfold skip_numbers in *. rewrite skip_while_left by lia.
  destruct (skip_while numbers (n1 - pos) d1 pos <? n1) eqn:L; [reflexivity|].
  apply Nat.ltb_ge in L.
  replace (skip_while numbers (n1 - pos) d1 pos) with n1 by lia.
  destruct (String.get n1 d) as [c|] eqn:G.
  - apply (skip_while_stay numbers _ d n1 c G).
    rewrite <- (Nat.add_0_r n1), get_right in G. now apply seam.
  - apply get_None_ge in G. replace (String.length d - n1) with 0 by lia. reflexivity.
Qed.

Lemma get_seam_not_point (p : nat) :
  p <= n1 -> String.get p d1 <> Some decimal_point ->
  String.get p d <> Some decimal_point.
Proof.
  intros B N. destruct (Nat.eq_dec p n1) as [->|Ne].
  - rewrite <- (Nat.add_0_r n1), get_right. intros G. now apply seam in G.
  - rewrite get_left by lia. exact N.
Qed.

Lemma after_sign_left (st : nat) :
  st < n1 -> after_sign d st = after_sign d1 st.
Proof. intros L. unfold after_sign. now rewrite get_left. Qed.

(** A number scanned in the first text is scanned alike in the whole. *)
Lemma parse_number_left (pos p : nat) (v : number) :
  parse_number d1 pos = Ok (p, v) -> parse_number d pos = Ok (p, v).
Proof.
  intros H. apply number_scan_parse.
  pose proof (parse_number_scan d1 pos) as Sc. rewrite H in Sc.
  pose proof (after_sign_ge d1 (skip_seps d1 pos)) as Ga.
  inversion Sc as [ | | | | c0 c1 r H0 C0 H1 C1 Hp Hr | | | c0 c1 c2 r H0 C0 H1 C1 Hp H2 C2 Hr].
  - pose proof (get_Some_lt _ _ _ H0) as L0. pose proof (get_Some_lt _ _ _ H1) as L1.
    pose proof (skip_numbers_le d1 (after_sign d1 (skip_seps d1 pos)) ltac:(lia)) as L2.
    pose proof (skip_numbers_ge d1 (after_sign d1 (skip_seps d1 pos))) as G2.
    assert (E0 : skip_seps d pos = skip_seps d1 pos) by now apply skip_seps_left.
    assert (Ea : after_sign d (skip_seps d pos) = after_sign d1 (skip_seps d1 pos)).
    { rewrite E0. now apply after_sign_left. }
    assert (E1 : skip_numbers d (after_sign d (skip_seps d pos))
                 = skip_numbers d1 (after_sign d1 (skip_seps d1 pos))).
    { rewrite Ea. apply skip_numbers_left. lia. }
    apply (scan_int d pos c0 c1).
    + now rewrite E0, get_left.
    + exact C0.
    + now rewrite Ea, get_left.
    + exact C1.
    + rewrite E1. now apply get_seam_not_point.
    + rewrite E1, E0, slice_left by lia. exact Hr.
  - pose proof (get_Some_lt _ _ _ H0) as L0. pose proof (get_Some_lt _ _ _ H1) as L1.
    pose proof (get_Some_lt _ _ _ Hp) as Lp. pose proof (get_Some_lt _ _ _ H2) as L2.
    pose proof (skip_numbers_ge d1 (after_sign d1 (skip_seps d1 pos))) as G2.
    pose proof (skip_numbers_ge d1 (S (skip_numbers d1 (after_sign d1 (skip_seps d1 pos))))) as G3.
    pose proof (skip_numbers_le d1 (S (skip_numbers d1 (after_sign d1 (skip_seps d1 pos))))
                  ltac:(lia)) as L3.
    assert (E0 : skip_seps d pos = skip_seps d1 pos) by now apply skip_seps_left.
    assert (Ea : after_sign d (skip_seps d pos) = after_sign d1 (skip_seps d1 pos)).
    { rewrite E0. now apply after_sign_left. }
    assert (E1 : skip_numbers d (after_sign d (skip_seps d pos))
                 = skip_numbers d1 (after_sign d1 (skip_seps d1 pos))).
    { rewrite Ea. apply skip_numbers_left. lia. }
    assert (E2 : skip_numbers d (S (skip_numbers d (after_sign d (skip_seps d pos))))
                 = skip_numbers d1 (S (skip_numbers d1 (after_sign d1 (skip_seps d1 pos))))).
    { rewrite E1. apply skip_numbers_left. lia. }
    apply (scan_float d pos c0 c1 c2).
    + now rewrite E0, get_left.
    + exact C0.
    + now rewrite Ea, get_left.
    + exact C1.
    + now rewrite E1, get_left.
    + now rewrite E1, get_left.
    + exact C2.
    + rewrite E2, E0, slice_left by lia. exact Hr.
Qed.

End Append.

Section AppendScan.

Variables d1 d2 : string.

#[local] Abbreviation d := (d1 ++ d2).
#[local] Abbreviation n1 := (String.length d1).

Lemma after_sign_right (st : nat) :
  after_sign d (n1 + st) = n1 + after_sign d2 st.
Proof.
  unfold after_sign. rewrite get_right. destruct (String.get st d2) as [c|]; [|reflexivity].
  destruct (Ascii.eqb c minus_sign); lia.
Qed.

(** A number scanned in the second text is scanned alike in the whole,
    with the cursor moved by the length of the first text. *)
Lemma parse_number_right (pos p : nat) (v : number) :
  parse_number d2 pos = Ok (p, v) -> parse_number d (n1 + pos) = Ok (n1 + p, v).
Proof.
  intros H. apply number_scan_parse.
  pose proof (parse_number_scan d2 pos) as Sc. rewrite H in Sc.
  assert (E0 : skip_seps d (n1 + pos) = n1 + skip_seps d2 pos) by apply skip_seps_right.
  assert (Ea : after_sign d (skip_seps d (n1 + pos))
               = n1 + after_sign d2 (skip_seps d2 pos)).
  { rewrite E0. apply after_sign_right. }
  assert (E1 : skip_numbers d (after_sign d (skip_seps d (n1 + pos)))
               = n1 + skip_numbers d2 (after_sign d2 (skip_seps d2 pos))).
  { rewrite Ea. apply skip_numbers_right. }
  assert (E2 : skip_numbers d (S (skip_numbers d (after_sign d (skip_seps d (n1 + pos)))))
               = n1 + skip_numbers d2 (S (skip_numbers d2 (after_sign d2 (skip_seps d2 pos))))).
  { rewrite E1. rewrite <- Nat.add_succ_r. apply skip_numbers_right. }
  inversion Sc as [ | | | | c0 c1 r H0 C0 H1 C1 Hp Hr | | | c0 c1 c2 r H0 C0 H1 C1 Hp H2 C2 Hr].
  - apply (scan_int d (n1 + pos) c0 c1).
    + now rewrite E0, get_right.
    + exact C0.
    + now rewrite Ea, get_right.
    + exact C1.
    + now rewrite E1, get_right.
    + rewrite E1, E0, slice_right. destruct (int _); inv Hr. reflexivity.
  - apply (scan_float d (n1 + pos) c0 c1 c2).
    + now rewrite E0, get_right.
    + exact C0.
    + now rewrite Ea, get_right.
    + exact C1.
    + now rewrite E1, get_right.
    + now rewrite E1, <- Nat.add_succ_r, get_right.
    + exact C2.
    + rewrite E2, E0, slice_right. destruct (float _); inv Hr. reflexivity.
Qed.

Lemma parse_cooridate_right (pos p : nat) (xy : number * number) :
  parse_cooridate d2 pos = Ok (p, xy) -> parse_cooridate d (n1 + pos) = Ok (n1 + p, xy).
Proof.
  destruct xy as [x y]. rewrite !parse_cooridate_split.
  intros (p1 & H1 & H2). exists (n1 + p1). split; now apply parse_number_right.
Qed.

Lemma parse_command_right (c : ascii) (pos p : nat) (pc : PathCommand) :
  parse_command c d2 pos = Ok (p, pc) -> parse_command c d (n1 + pos) = Ok (n1 + p, pc).
Proof.
  unfold parse_command. intros H.
  repeat match type of H with
  | (if ?b then _ else _) = _ => destruct b
  | bind (parse_cooridate _ _) _ = Ok _ =>
      let a := fresh "a" in let Hs := fresh "Hs" in
      apply bind_Ok_inv in H; destruct H as (a & Hs & H); destruct a as [? [? ?]];
      apply parse_cooridate_right in Hs; rewrite Hs; cbn [bind]
  end; try discriminate; now inv H.
Qed.

(** The loop over the second text, run inside the whole text: the records
    come after the ones already held.  The command active at the start
    does not matter when the loop over the second text needed none. *)
Lemma parse_loop_right (fuel : nat) (pos : nat) (last last' : option ascii)
    (acc l held : list PathCommand) :
  last = None \/ last' = last ->
  parse_loop fuel d2 pos last acc = Ok l ->
  parse_loop fuel d (n1 + pos) last' (held ++ acc) = Ok (held ++ l)%list.
Proof.
  revert pos last last' acc; induction fuel as [|fuel IH]; intros pos last last' acc R H.
  - cbn [parse_loop] in H. destruct (pos <? String.length d2) eqn:L; [discriminate|].
    inv H. apply parse_loop_done. apply Nat.ltb_ge in L. rewrite length_app. lia.
  - destruct (turn_cases d2 pos last) as [L|c G C|c l0 G C N ->|c G C N].
    + rewrite parse_loop_done in H by lia. inv H.
      apply parse_loop_done. rewrite length_app. lia.
    + rewrite (parse_loop_letter _ _ _ _ _ _ G C) in H. bind_ok H. destruct a as [p' pc].
      assert (G' : String.get (n1 + pos) d = Some c) by now rewrite get_right.
      rewrite (parse_loop_letter _ _ _ _ _ _ G' C), <- Nat.add_succ_r.
      rewrite (parse_command_right _ _ _ _ Hstep). cbn [bind].
      rewrite skip_seps_right, <- List.app_assoc.
      apply (IH _ (Some c)); auto.
    + destruct R as [R| ->]; [discriminate|].
      rewrite (parse_loop_elided _ _ _ _ _ _ G C N) in H. bind_ok H. destruct a as [p' pc].
      assert (G' : String.get (n1 + pos) d = Some c) by now rewrite get_right.
      rewrite (parse_loop_elided _ _ _ _ _ _ G' C N).
      rewrite (parse_command_right _ _ _ _ Hstep). cbn [bind].
      rewrite skip_seps_right, <- List.app_assoc.
      apply (IH _ (Some l0)); auto.
    + rewrite (parse_loop_other _ _ _ _ _ _ G C N) in H.
      unfold raise_unexpected_char, index in H.
      destruct (String.get (S pos) d2); discriminate.
Qed.

Hypothesis seam :
  forall c, String.get 0 d2 = Some c -> char_in c numbers = false /\ c <> decimal_point.

Lemma parse_cooridate_left (pos p : nat) (xy : number * number) :
  parse_cooridate d1 pos = Ok (p, xy) -> parse_cooridate d pos = Ok (p, xy).
Proof.
  destruct xy as [x y]. rewrite !parse_cooridate_split.
  intros (p1 & H1 & H2). exists p1. split; now apply parse_number_left.
Qed.

Lemma parse_command_left (c : ascii) (pos p : nat) (pc : PathCommand) :
  parse_command c d1 pos = Ok (p, pc) -> parse_command c d pos = Ok (p, pc).
Proof.
  unfold parse_command. intros H.
  repeat match type of H with
  | (if ?b then _ else _) = _ => destruct b
  | bind (parse_cooridate _ _) _ = Ok _ =>
      let a := fresh "a" in let Hs := fresh "Hs" in
      apply bind_Ok_inv in H; destruct H as (a & Hs & H); destruct a as [? [? ?]];
      apply parse_cooridate_left in Hs; rewrite Hs; cbn [bind]
  end; try discriminate; exact H.
Qed.

(** The loop over the first text, run inside the whole text, gets to the
    seam with the records of the first text. *)
Lemma parse_loop_left (fuel : nat) (q : nat) (last : option ascii)
    (acc l1 : list PathCommand) :
  q <= n1 ->
  parse_loop fuel d1 (skip_seps d1 q) last acc = Ok l1 ->
  exists last',
    forall f, String.length d - skip_seps d q <= f ->
      parse_loop f d (skip_seps d q) last acc
      = parse_loop (String.length d - skip_seps d n1) d (skip_seps d n1) last' l1.
Proof.
  revert q last acc; induction fuel as [|fuel IH]; intros q last acc B H.
  - cbn [parse_loop] in H.
    destruct (skip_seps d1 q <? n1) eqn:L; [discriminate|]. inv H.
    apply Nat.ltb_ge in L. exists last. intros f F.
    rewrite (skip_seps_seam d1 d2 q B L) in *.
    apply parse_loop_fuel_irrelevant; lia.
  - destruct (turn_cases d1 (skip_seps d1 q) last) as [L|c G C|c l0 G C N ->|c G C N].
    + rewrite parse_loop_done in H by lia. inv H. exists last. intros f F.
      rewrite (skip_seps_seam d1 d2 q B L) in *.
      apply parse_loop_fuel_irrelevant; lia.
    + pose proof (get_Some_lt _ _ _ G) as L.
      rewrite (parse_loop_letter _ _ _ _ _ _ G C) in H. bind_ok H. destruct a as [p' pc].
      pose proof (parse_command_Ok _ _ _ _ _ Hstep) as (_ & _ & P).
      destruct (IH p' (Some c) _ ltac:(lia) H) as [last' K]. exists last'. intros f F.
      rewrite (skip_seps_left d1 d2 q L) in *.
      assert (G' : String.get (skip_seps d1 q) d = Some c) by now rewrite get_left.
      pose proof (get_Some_lt _ _ _ G') as L'.
      destruct f as [|f]; [lia|].
      rewrite (parse_loop_letter _ _ _ _ _ _ G' C), (parse_command_left _ _ _ _ Hstep).
      cbn [bind]. apply K. pose proof (skip_seps_ge d p'). lia.
    + pose proof (get_Some_lt _ _ _ G) as L.
      rewrite (parse_loop_elided _ _ _ _ _ _ G C N) in H. bind_ok H. destruct a as [p' pc].
      pose proof (parse_command_Ok _ _ _ _ _ Hstep) as (_ & _ & P).
      destruct (IH p' (Some l0) _ ltac:(lia) H) as [last' K]. exists last'. intros f F.
      rewrite (skip_seps_left d1 d2 q L) in *.
      assert (G' : String.get (skip_seps d1 q) d = Some c) by now rewrite get_left.
      pose proof (get_Some_lt _ _ _ G') as L'.
      destruct f as [|f]; [lia|].
      rewrite (parse_loop_elided _ _ _ _ _ _ G' C N), (parse_command_left _ _ _ _ Hstep).
      cbn [bind]. apply K. pose proof (skip_seps_ge d p'). lia.
    + rewrite (parse_loop_other _ _ _ _ _ _ G C N) in H.
      unfold raise_unexpected_char, index in H.
      destruct (String.get (S (skip_seps d1 q)) d1); discriminate.
Qed.

End AppendScan.

(** A text that parses does not start with a digit, a minus sign or a
    decimal point. *)
Lemma parse_ok_first_char (d : string) (l : list PathCommand) (c : ascii) :
  parse_d_property d = Ok l -> String.get 0 d = Some c ->
  char_in c numberic_chars = false.
Proof.
  intros H G. destruct (char_in c numberic_chars) eqn:N; [|reflexivity]. exfalso.
  assert (NS : char_in c sep_chars = false).
  { destruct c as [[] [] [] [] [] [] [] []]; try discriminate; reflexivity. }
  assert (S0 : skip_seps d 0 = 0) by exact (skip_while_stay sep_chars _ d 0 c G NS).
  unfold parse_d_property in H. pose proof (get_Some_lt _ _ _ G) as L.
  destruct (String.length d) as [|n]; [lia|]. cbn [Nat.eqb] in H.
  rewrite !S0 in H.
  rewrite (parse_loop_other n d 0 c None [] G (numeric_not_command c N) (or_intror eq_refl)) in H.
  unfold raise_unexpected_char, index in H. destruct (String.get 1 d); discriminate.
Qed.

Lemma parse_ok_seam (d : string) (l : list PathCommand) (c : ascii) :
  parse_d_property d = Ok l -> String.get 0 d = Some c ->
  char_in c numbers = false /\ c <> decimal_point.
Proof.
  intros H G. pose proof (parse_ok_first_char d l c H G) as N.
  unfold numberic_chars in N. rewrite !char_in_app in N.
  apply orb_false_iff in N. destruct N as [N1 N2]. split; [exact N1|].
  intros ->. discriminate.
Qed.

Lemma parse_app (d1 d2 : string) (l1 l2 : list PathCommand) :
  parse_d_property d1 = Ok l1 -> parse_d_property d2 = Ok l2 ->
  parse_d_property (d1 ++ d2) = Ok (l1 ++ l2)%list.
Proof.
  intros H1 H2.
  pose proof (fun c => parse_ok_seam d2 l2 c H2) as seam.
  unfold parse_d_property in *.
  destruct (String.length d1 =? 0) eqn:Z1; [discriminate|].
  destruct (String.length d2 =? 0) eqn:Z2; [discriminate|].
  apply Nat.eqb_neq in Z1, Z2.
  rewrite length_app.
  destruct (String.length d1 + String.length d2 =? 0) eqn:Z; [apply Nat.eqb_eq in Z; lia|].
  rewrite skip_seps_idem in *.
  destruct (parse_loop_left d1 d2 seam _ 0 None [] l1 ltac:(lia) H1) as [last' K].
  rewrite K by (rewrite length_app; lia).
  assert (E : skip_seps (d1 ++ d2) (String.length d1)
              = String.length d1 + skip_seps d2 0).
  { rewrite <- (skip_seps_right d1 d2 0). now rewrite Nat.add_0_r. }
  rewrite E.
  rewrite (parse_loop_fuel_irrelevant _ (String.length d2)) by (rewrite length_app; lia).
  rewrite <- (List.app_nil_r l1) at 1.
  apply (parse_loop_right d1 d2 _ _ None last' [] l2 l1); auto.
Qed.

(** X12. Texts that parse can be put one after the other: when two texts
    parse, the first followed by the second parses to the records of the
    first followed by the records of the second. *)
Theorem parse_d_property_app (d1 d2 : string) (l1 l2 : list PathCommand) :
  parse_d_property d1 = Ok l1 -> parse_d_property d2 = Ok l2 ->
  parse_d_property (d1 ++ d2) = Ok (l1 ++ l2)%list.
Proof. apply parse_app. Qed.

Lemma parse_d_property_app_witness :
  parse_d_property ("M1 2-3 4" ++ "c1 2 3 4 5 6")
  = Ok ([mkPathCommand "M" [PyInt 1; PyInt 2]; mkPathCommand "M" [PyInt (-3); PyInt 4]]
        ++ [mkPathCommand "c" [PyInt 1; PyInt 2; PyInt 3; PyInt 4; PyInt 5; PyInt 6]])%list.
Proof. apply parse_d_property_app; reflexivity. Defined.

(** X13. Separators around a text are ignored: a text that parses still
    parses, to the same records, with any run of separators put before it
    and any run of separators put after it. *)
Theorem parse_d_property_padding (before d after : string) (l : list PathCommand) :
  all_in sep_chars before = true -> all_in sep_chars after = true ->
  parse_d_property d = Ok l ->
  parse_d_property (before ++ d ++ after) = Ok l.
Proof.
  intros B A H.
  assert (R : parse_d_property (d ++ after) = Ok l).
  { destruct after as [|c t]; [now rewrite app_nil_r|].
    rewrite <- (List.app_nil_r l). apply parse_app; [exact H|].
    apply parse_seps_only; [discriminate|exact A]. }
  destruct before as [|c t]; [exact R|].
  change l with ([] ++ l)%list. apply parse_app; [|exact R].
  apply parse_seps_only; [discriminate|exact B].
Qed.

Lemma parse_d_property_padding_witness :
  parse_d_property ((String "010" " ") ++ "M1,2" ++ " , ")
  = Ok [mkPathCommand "M" [PyInt 1; PyInt 2]].
Proof. apply parse_d_property_padding; reflexivity. Defined.

(** ** The characters of a text that parses *)

Lemma allowed_sep (c : ascii) : char_in c sep_chars = true -> char_in c allowed_chars = true.
Proof. intros H. unfold allowed_chars. now rewrite char_in_app, H. Qed.

Lemma allowed_numeric (c : ascii) :
  char_in c numberic_chars = true -> char_in c allowed_chars = true.
Proof. intros H. unfold allowed_chars. now rewrite !char_in_app, H, orb_true_r. Qed.

Lemma allowed_digit (c : ascii) : char_in c numbers = true -> char_in c allowed_chars = true.
Proof.
  intros H. apply allowed_numeric. unfold numberic_chars. now rewrite char_in_app, H.
Qed.

Lemma allowed_command (c : ascii) : char_in c commands = true -> char_in c allowed_chars = true.
Proof. intros H. unfold allowed_chars. now rewrite !char_in_app, H, !orb_true_r. Qed.

Lemma covered_join (d : string) (a b c : nat) :
  covered d a b -> covered d b c -> covered d a c.
Proof.
  intros H1 H2 i I. destruct (Nat.lt_ge_cases i b); [apply H1|apply H2]; lia.
Qed.

Lemma covered_one (d : string) (a : nat) (c : ascii) :
  String.get a d = Some c -> char_in c allowed_chars = true -> covered d a (S a).
Proof. intros G A i I. replace i with a by lia. eauto. Qed.

Lemma covered_seps (d : string) (pos : nat) : covered d pos (skip_seps d pos).
Proof.
  intros i I. destruct (skip_while_inside sep_chars _ d pos i I) as (c & G & C).
  eauto using allowed_sep.
Qed.

Lemma covered_digits (d : string) (pos : nat) : covered d pos (skip_numbers d pos).
Proof.
  intros i I. destruct (skip_while_inside numbers _ d pos i I) as (c & G & C).
  eauto using allowed_digit.
Qed.

Lemma covered_sign (d : string) (st : nat) (c0 : ascii) :
  String.get st d = Some c0 -> char_in c0 numberic_chars = true ->
  covered d st (after_sign d st).
Proof.
  intros G C i I. unfold after_sign in I. rewrite G in I.
  destruct (Ascii.eqb c0 minus_sign); [|lia].
  replace i with st by lia. eauto using allowed_numeric.
Qed.

Lemma parse_number_covered (d : string) (pos p : nat) (v : number) :
  parse_number d pos = Ok (p, v) -> covered d pos p.
Proof.
  intros H. pose proof (parse_number_scan d pos) as Sc. rewrite H in Sc.
  inversion Sc as [ | | | | c0 c1 r H0 C0 H1 C1 Hp Hr | | | c0 c1 c2 r H0 C0 H1 C1 Hp H2 C2 Hr].
  - destruct (int _); inv Hr.
    eapply covered_join; [apply covered_seps|].
    eapply covered_join; [eapply covered_sign; eauto|apply covered_digits].
  - destruct (float _); inv Hr.
    eapply covered_join; [apply covered_seps|].
    eapply covered_join; [eapply covered_sign; eauto|].
    eapply covered_join; [apply covered_digits|].
    eapply covered_join; [|apply covered_digits].
    eapply covered_one; [exact Hp|reflexivity].
Qed.

Lemma parse_cooridate_covered (d : string) (pos p : nat) (xy : number * number) :
  parse_cooridate d pos = Ok (p, xy) -> covered d pos p.
Proof.
  destruct xy as [x y]. rewrite parse_cooridate_split. intros (p1 & H1 & H2).
  eapply covered_join; eapply parse_number_covered; eauto.
Qed.

Lemma parse_command_covered (c : ascii) (d : string) (pos p : nat) (pc : PathCommand) :
  parse_command c d pos = Ok (p, pc) -> covered d pos p.
Proof.
  unfold parse_command. intros H.
  destruct (char_in c moveto_commands).
  { bind_ok H. destruct a as [p1 xy]. destruct xy. inv H.
    eapply parse_cooridate_covered; eauto. }
  destruct (char_in c curveto_commands).
  { bind_ok H. destruct a as [p1 [x1 y1]]. bind_ok H. destruct a as [p2 [x2 y2]].
    bind_ok H. destruct a as [p3 [x3 y3]]. inv H.
    eapply covered_join; [eapply parse_cooridate_covered; eauto|].
    eapply covered_join; eapply parse_cooridate_covered; eauto. }
  destruct (char_in c smooth_curveto_commands); [|discriminate].
  bind_ok H. destruct a as [p1 [x1 y1]]. bind_ok H. destruct a as [p2 [x2 y2]]. inv H.
  eapply covered_join; eapply parse_cooridate_covered; eauto.
Qed.

Lemma parse_loop_covered (fuel : nat) (d : string) (pos : nat)
    (last : option ascii) (acc l : list PathCommand) :
  covered d 0 pos ->
  parse_loop fuel d pos last acc = Ok l -> covered d 0 (String.length d).
Proof.
  revert pos last acc; induction fuel as [|fuel IH]; intros pos last acc Cv H.
  - cbn [parse_loop] in H. destruct (pos <? String.length d) eqn:L; [discriminate|].
    apply Nat.ltb_ge in L. intros i I. apply Cv. lia.
  - destruct (turn_cases d pos last) as [L|c G C|c l0 G C N ->|c G C N].
    + intros i I. apply Cv. lia.
    + rewrite (parse_loop_letter _ _ _ _ _ _ G C) in H. bind_ok H. destruct a as [p' pc].
      apply parse_command_covered in Hstep. eapply IH; [|exact H].
      eapply covered_join; [exact Cv|].
      eapply covered_join; [eapply covered_one; eauto using allowed_command|].
      eapply covered_join; [exact Hstep|apply covered_seps].
    + rewrite (parse_loop_elided _ _ _ _ _ _ G C N) in H. bind_ok H. destruct a as [p' pc].
      apply parse_command_covered in Hstep. eapply IH; [|exact H].
      eapply covered_join; [exact Cv|].
      eapply covered_join; [exact Hstep|apply covered_seps].
    + rewrite (parse_loop_other _ _ _ _ _ _ G C N) in H.
      unfold raise_unexpected_char, index in H.
      destruct (String.get (S pos) d); discriminate.
Qed.

(** X14. A text that parses holds nothing but separators, digits, minus
    signs, decimal points and the six command letters: any other character
    anywhere in the text makes [parse_d_property] fail. *)
Theorem parse_d_property_alphabet (d : string) (l : list PathCommand) :
  parse_d_property d = Ok l -> all_in allowed_chars d = true.
Proof.
  unfold parse_d_property. destruct (String.length d =? 0); [discriminate|].
  rewrite skip_seps_idem. intros H.
  apply parse_loop_covered in H; [|apply covered_seps].
  apply all_in_get. intros i c G. pose proof (get_Some_lt _ _ _ G) as L.
  destruct (H i ltac:(lia)) as (c' & G' & A). congruence.
Qed.

Lemma parse_d_property_alphabet_witness :
  all_in allowed_chars "M1.5,-2 s3 4 5 6" = true.
Proof.
  apply (parse_d_property_alphabet _
    [mkPathCommand "M" [PyFloat (S754_finite false 6755399441055744 (-52)); PyInt (-2)];
     mkPathCommand "s" [PyInt 3; PyInt 4; PyInt 5; PyInt 6]]).
  vm_compute. reflexivity.
Defined.

(** ** Exchanging separators *)

Lemma string_ext (s s' : string) :
  (forall i, String.get i s = String.get i s') -> s = s'.
Proof.
  revert s'; induction s as [|c s IH]; intros [|c' s'] H.
  - reflexivity.
  - specialize (H 0). discriminate.
  - specialize (H 0). discriminate.
  - pose proof (H 0) as H0. simpl in H0. injection H0 as ->. f_equal.
    apply IH. intros i. apply (H (S i)).
Qed.

Lemma slice_ext (d d' : string) (a b : nat) :
  (forall i, a <= i < b -> String.get i d = String.get i d') ->
  slice d a b = slice d' a b.
Proof.
  intros H. unfold slice. apply string_ext. intros i.
  destruct (Nat.lt_ge_cases i (b - a)) as [L|L].
  - rewrite !get_substring by exact L. apply H. lia.
  - destruct (String.get i (substring a (b - a) d)) as [c|] eqn:G1.
    { apply get_substring_Some in G1. lia. }
    destruct (String.get i (substring a (b - a) d')) as [c|] eqn:G2.
    { apply get_substring_Some in G2. lia. }
    reflexivity.
Qed.

Lemma sep_not_numeric (c : ascii) :
  char_in c sep_chars = true -> char_in c numberic_chars = false.
Proof. rewrite sep_chars_spec. intros [->|[->| ->]]; reflexivity. Qed.

Lemma sep_not_command (c : ascii) :
  char_in c sep_chars = true -> char_in c commands = false.
Proof. rewrite sep_chars_spec. intros [->|[->| ->]]; reflexivity. Qed.

Lemma digit_numeric (c : ascii) :
  char_in c numbers = true -> char_in c numberic_chars = true.
Proof. intros H. unfold numberic_chars. now rewrite char_in_app, H. Qed.

Lemma same_but_seps_sym (d d' : string) : same_but_seps d d' -> same_but_seps d' d.
Proof.
  intros H i. specialize (H i).
  destruct (String.get i d), (String.get i d'); try exact H.
  destruct H as [->|[A B]]; auto.
Qed.

Lemma same_but_seps_length (d d' : string) :
  same_but_seps d d' -> String.length d = String.length d'.
Proof.
  intros H.
  assert (A : forall a b, same_but_seps a b -> String.length b <= String.length a).
  { intros a b Hab. specialize (Hab (String.length a)).
    rewrite (proj2 (get_None_ge a (String.length a)) (le_n _)) in Hab.
    destruct (String.get (String.length a) b) eqn:G; [contradiction|].
    now apply get_None_ge in G. }
  pose proof (A d d' H). pose proof (A d' d (same_but_seps_sym _ _ H)). lia.
Qed.

Section ExchangeSeparators.

Variables d d' : string.
Hypothesis same : same_but_seps d d'.

(** A character that is no separator stands at the same place in both. *)
Lemma same_get (i : nat) (c : ascii) :
  String.get i d = Some c -> char_in c sep_chars = false -> String.get i d' = Some c.
Proof.
  intros G N. pose proof (same i) as H. rewrite G in H.
  destruct (String.get i d') as [c'|]; [|contradiction].
  destruct H as [->|[A _]]; [reflexivity|congruence].
Qed.

Lemma same_numeric (i : nat) (c : ascii) :
  String.get i d = Some c -> char_in c numberic_chars = true -> String.get i d' = Some c.
Proof.
  intros G N. apply same_get; [exact G|].
  destruct (char_in c sep_chars) eqn:S; [|reflexivity].
  apply sep_not_numeric in S. congruence.
Qed.

(** The tests of the scanner cannot tell the two texts apart. *)
Lemma same_class (cls : string) (i : nat) :
  (forall c, char_in c sep_chars = true -> char_in c cls = false) \/ cls = sep_chars ->
  option_map (fun c => char_in c cls) (String.get i d)
  = option_map (fun c => char_in c cls) (String.get i d').
Proof.
  intros R. pose proof (same i) as H.
  destruct (String.get i d) as [c|], (String.get i d') as [c'|]; try contradiction;
    [|reflexivity].
  cbn [option_map]. f_equal. destruct H as [->|[A B]]; [reflexivity|].
  destruct R as [R| ->]; [now rewrite (R c A), (R c' B)|congruence].
Qed.

Lemma same_skip_while (cls : string) (left pos : nat) :
  (forall c, char_in c sep_chars = true -> char_in c cls = false) \/ cls = sep_chars ->
  skip_while cls left d pos = skip_while cls left d' pos.
Proof.
  intros R. revert pos; induction left as [|left IH]; intros pos; cbn [skip_while];
    [reflexivity|].
  pose proof (same_class cls pos R) as H.
  destruct (String.get pos d) as [c|], (String.get pos d') as [c'|]; try discriminate;
    [|reflexivity].
  cbn [option_map] in H. injection H as ->.
  destruct (char_in c' cls); [apply IH|reflexivity].
Qed.

Lemma same_skip_seps (pos : nat) : skip_seps d pos = skip_seps d' pos.
Proof.
  unfold skip_seps. rewrite (same_but_seps_length d d' same).
  apply same_skip_while. now right.
Qed.

Lemma same_skip_numbers (pos : nat) : skip_numbers d pos = skip_numbers d' pos.
Proof.
  unfold skip_numbers. rewrite (same_but_seps_length d d' same).
  apply same_skip_while. left. intros c S.
  pose proof (sep_not_numeric c S) as N. unfold numberic_chars in N.
  rewrite char_in_app in N. now apply orb_false_iff in N.
Qed.

Lemma same_after_sign (st : nat) (c0 : ascii) :
  String.get st d = Some c0 -> char_in c0 numberic_chars = true ->
  after_sign d st = after_sign d' st.
Proof.
  intros G N. unfold after_sign. now rewrite G, (same_numeric st c0 G N).
Qed.

End ExchangeSeparators.

Lemma same_not_point (d d' : string) (p : nat) :
  same_but_seps d d' ->
  String.get p d <> Some decimal_point -> String.get p d' <> Some decimal_point.
Proof.
  intros S N G. apply N.
  apply (same_get d' d (same_but_seps_sym _ _ S) p decimal_point G). reflexivity.
Qed.

Lemma parse_number_same (d d' : string) (pos p : nat) (v : number) :
  same_but_seps d d' ->
  parse_number d pos = Ok (p, v) -> parse_number d' pos = Ok (p, v).
Proof.
  intros Sm H. apply number_scan_parse.
  pose proof (parse_number_scan d pos) as Sc. rewrite H in Sc.
  pose proof (same_skip_seps d d' Sm pos) as E0.
  inversion Sc as [ | | | | c0 c1 r H0 C0 H1 C1 Hp Hr | | | c0 c1 c2 r H0 C0 H1 C1 Hp H2 C2 Hr].
  - pose proof (same_after_sign d d' Sm _ c0 H0 C0) as Ea.
    pose proof (same_skip_numbers d d' Sm (after_sign d (skip_seps d pos))) as E1.
    assert (Sl : slice d (skip_seps d pos) (skip_numbers d (after_sign d (skip_seps d pos)))
                 = slice d' (skip_seps d pos) (skip_numbers d (after_sign d (skip_seps d pos)))).
    { apply slice_ext. intros i I.
      destruct (Nat.lt_ge_cases i (after_sign d (skip_seps d pos))) as [A|A].
      - unfold after_sign in A. rewrite H0 in A.
        destruct (Ascii.eqb c0 minus_sign); [|lia].
        replace i with (skip_seps d pos) by lia.
        now rewrite H0, (same_numeric d d' Sm _ c0 H0 C0).
      - destruct (skip_while_inside numbers _ d _ i (conj A (proj2 I))) as (c & G & C).
        now rewrite G, (same_numeric d d' Sm _ c G (digit_numeric c C)). }
    rewrite Sl in Hr.
    apply (scan_int d' pos c0 c1).
    + rewrite <- E0. now apply (same_numeric d d' Sm).
    + exact C0.
    + rewrite <- E0, <- Ea. apply (same_numeric d d' Sm); auto using digit_numeric.
    + exact C1.
    + rewrite <- E0, <- Ea, <- E1. now apply (same_not_point d d').
    + rewrite <- E0, <- Ea, <- E1. exact Hr.
  - pose proof (same_after_sign d d' Sm _ c0 H0 C0) as Ea.
    pose proof (same_skip_numbers d d' Sm (after_sign d (skip_seps d pos))) as E1.
    pose proof (same_skip_numbers d d' Sm
                  (S (skip_numbers d (after_sign d (skip_seps d pos))))) as E2.
    assert (Sl : slice d (skip_seps d pos)
                   (skip_numbers d (S (skip_numbers d (after_sign d (skip_seps d pos)))))
                 = slice d' (skip_seps d pos)
                     (skip_numbers d (S (skip_numbers d (after_sign d (skip_seps d pos)))))).
    { apply slice_ext. intros i I.
      destruct (Nat.lt_ge_cases i (after_sign d (skip_seps d pos))) as [A|A].
      { unfold after_sign in A. rewrite H0 in A.
        destruct (Ascii.eqb c0 minus_sign); [|lia].
        replace i with (skip_seps d pos) by lia.
        now rewrite H0, (same_numeric d d' Sm _ c0 H0 C0). }
      destruct (Nat.lt_ge_cases i (skip_numbers d (after_sign d (skip_seps d pos)))) as [B|B].
      { destruct (skip_while_inside numbers _ d _ i (conj A B)) as (c & G & C).
        now rewrite G, (same_numeric d d' Sm _ c G (digit_numeric c C)). }
      destruct (Nat.eq_dec i (skip_numbers d (after_sign d (skip_seps d pos)))) as [->|Ne].
      { now rewrite Hp, (same_numeric d d' Sm _ decimal_point Hp eq_refl). }
      destruct (skip_while_inside numbers
                  (String.length d - S (skip_numbers d (after_sign d (skip_seps d pos)))) d
                  (S (skip_numbers d (after_sign d (skip_seps d pos)))) i) as (c & G & C).
      { split; [lia|exact (proj2 I)]. }
      now rewrite G, (same_numeric d d' Sm _ c G (digit_numeric c C)). }
    rewrite Sl in Hr.
    apply (scan_float d' pos c0 c1 c2).
    + rewrite <- E0. now apply (same_numeric d d' Sm).
    + exact C0.
    + rewrite <- E0, <- Ea. apply (same_numeric d d' Sm); auto using digit_numeric.
    + exact C1.
    + rewrite <- E0, <- Ea, <- E1. now apply (same_numeric d d' Sm).
    + rewrite <- E0, <- Ea, <- E1. apply (same_numeric d d' Sm); auto using digit_numeric.
    + exact C2.
    + rewrite <- E0, <- Ea, <- E1, <- E2. exact Hr.
Qed.

Lemma parse_cooridate_same (d d' : string) (pos p : nat) (xy : number * number) :
  same_but_seps d d' ->
  parse_cooridate d pos = Ok (p, xy) -> parse_cooridate d' pos = Ok (p, xy).
Proof.
  intros S. destruct xy as [x y]. rewrite !parse_cooridate_split.
  intros (p1 & H1 & H2). exists p1. split; eapply parse_number_same; eauto.
Qed.

Lemma parse_command_same (c : ascii) (d d' : string) (pos p : nat) (pc : PathCommand) :
  same_but_seps d d' ->
  parse_command c d pos = Ok (p, pc) -> parse_command c d' pos = Ok (p, pc).
Proof.
  intros S. unfold parse_command. intros H.
  repeat match type of H with
  | (if ?b then _ else _) = _ => destruct b
  | bind (parse_cooridate _ _) _ = Ok _ =>
      let a := fresh "a" in let Hs := fresh "Hs" in
      apply bind_Ok_inv in H; destruct H as (a & Hs & H); destruct a as [? [? ?]];
      apply (parse_cooridate_same d d' _ _ _ S) in Hs; rewrite Hs; cbn [bind]
  end; try discriminate; exact H.
Qed.

Lemma parse_loop_same (fuel : nat) (d d' : string) (pos : nat)
    (last : option ascii) (acc l : list PathCommand) :
  same_but_seps d d' ->
  parse_loop fuel d pos last acc = Ok l -> parse_loop fuel d' pos last acc = Ok l.
Proof.
  intros Sm. revert pos last acc; induction fuel as [|fuel IH]; intros pos last acc H.
  - cbn [parse_loop] in *. rewrite <- (same_but_seps_length d d' Sm). exact H.
  - destruct (turn_cases d pos last) as [L|c G C|c l0 G C N ->|c G C N].
    + rewrite parse_loop_done in H by lia. inv H.
      apply parse_loop_done. rewrite <- (same_but_seps_length d d' Sm). exact L.
    + rewrite (parse_loop_letter _ _ _ _ _ _ G C) in H. bind_ok H. destruct a as [p' pc].
      assert (G' : String.get pos d' = Some c).
      { apply (same_get d d' Sm pos c G). destruct (char_in c sep_chars) eqn:Sp; [|reflexivity].
        apply sep_not_command in Sp. congruence. }
      rewrite (parse_loop_letter _ _ _ _ _ _ G' C).
      rewrite (parse_command_same _ d d' _ _ _ Sm Hstep). cbn [bind].
      rewrite <- (same_skip_seps d d' Sm). now apply IH.
    + rewrite (parse_loop_elided _ _ _ _ _ _ G C N) in H. bind_ok H. destruct a as [p' pc].
      pose proof (same_numeric d d' Sm pos c G N) as G'.
      rewrite (parse_loop_elided _ _ _ _ _ _ G' C N).
      rewrite (parse_command_same _ d d' _ _ _ Sm Hstep). cbn [bind].
      rewrite <- (same_skip_seps d d' Sm). now apply IH.
    + rewrite (parse_loop_other _ _ _ _ _ _ G C N) in H.
      unfold raise_unexpected_char, index in H.
      destruct (String.get (S pos) d); discriminate.
Qed.

(** X15. Separators are interchangeable: two texts that differ only in
    which separator (space, comma or newline) stands at some of the places
    where a separator stands parse to the same records. *)
Theorem parse_d_property_exchange_seps (d d' : string) (l : list PathCommand) :
  same_but_seps d d' ->
  parse_d_property d = Ok l -> parse_d_property d' = Ok l.
Proof.
  intros S. unfold parse_d_property.
  rewrite <- (same_but_seps_length d d' S).
  destruct (String.length d =? 0); [discriminate|].
  rewrite <- !(same_skip_seps d d' S). apply parse_loop_same. exact S.
Qed.

Lemma parse_d_property_exchange_seps_witness :
  parse_d_property "M1,2 C1,2,3,4,5,6"
  = Ok [mkPathCommand "M" [PyInt 1; PyInt 2];
        mkPathCommand "C" [PyInt 1; PyInt 2; PyInt 3; PyInt 4; PyInt 5; PyInt 6]].
Proof.
  apply (parse_d_property_exchange_seps "M1 2,C1 2 3 4 5 6"); [|reflexivity].
  intros i. do 18 (destruct i as [|i]; [cbn; auto|]). exact I.
Defined.
